(** * scripts/demo_cr.py: validation, frame composition and GIF export

    A shallow embedding of [multiline] and [planning_example].

    Coordinates, costs and times are Python floats in the source.  The
    drawing model carries them as exact rationals ([Q]); statements about it
    are kept to what does not depend on rounding, and the viewport
    arithmetic, where rounding shows, is also given over binary64 floats
    ([Float64.square_limits]).  The external collaborators (planner,
    CommonRoad scenario, collision engine and solution writer, matplotlib,
    PIL) are not part of the script: their results are inputs of the model,
    and the few library operations the script relies on are modelled by small
    definitions that are marked as such. *)

From Stdlib Require Import QArith Qminmax Qround Qabs Lqa ZArith Lia Ascii.
From Stdlib Require PrimFloat FloatOps SpecFloat.
From stdpp Require Import base option list gmap strings pretty.

Set Warnings "-inexact-float".

Local Open Scope Q_scope.

(** ** Python and numpy list helpers *)

Module Py.

(** [min(l)] and [max(l)] raise [ValueError] on an empty sequence: [None]
    here.  Python keeps the first extremal element. *)
Definition min2 (a b : Q) : Q := if Qlt_le_dec b a then b else a.
Definition max2 (a b : Q) : Q := if Qlt_le_dec a b then b else a.

Definition min (l : list Q) : option Q :=
  match l with
  | [] => None
  | a :: l' => Some (fold_left min2 l' a)
  end.

Definition max (l : list Q) : option Q :=
  match l with
  | [] => None
  | a :: l' => Some (fold_left max2 l' a)
  end.

(** [l[i:j]], [l[i:]], [l[:j]] for non-negative bounds: out-of-range
    bounds are clamped, never an error. *)
Definition slice_to {A} (j : nat) (l : list A) : list A := take j l.
Definition slice_from {A} (i : nat) (l : list A) : list A := drop i l.
Definition slice {A} (i j : nat) (l : list A) : list A := drop i (take j l).

(** [l[:-1]] *)
Definition but_last {A} (l : list A) : list A := removelast l.

(** [l[::5]]: every fifth element, starting with the first. *)
Fixpoint stride_aux {A} (n k : nat) (l : list A) : list A :=
  match l with
  | [] => []
  | a :: l' =>
      match k with
      | O => a :: stride_aux n n l'
      | S k' => stride_aux n k' l'
      end
  end.
Definition stride {A} (n : nat) (l : list A) : list A :=
  stride_aux (Nat.pred n) 0 l.

(** [np.diff(l)] *)
Fixpoint diff (l : list Q) : list Q :=
  match l with
  | a :: (b :: _) as l' => (b - a) :: diff l'
  | _ => []
  end.

(** [round(q, 3)]: round half to even at the third decimal. *)
Definition round_half_even (q : Q) : Z :=
  let f := Qfloor q in
  let r := q - inject_Z f in
  match Qcompare r (1 # 2) with
  | Lt => f
  | Gt => (f + 1)%Z
  | Eq => if Z.even f then f else (f + 1)%Z
  end.
Definition round3 (q : Q) : Q := inject_Z (round_half_even (q * 1000)) / 1000.

End Py.

(** ** Data model *)

(** A CommonRoad state; the script reads only [state.position]. *)
Record State := mkState { position : Q * Q }.

(** A CommonRoad trajectory; the script reads only [trajectory.state_list]. *)
Record Trajectory := mkTrajectory { state_list : list State }.

(** A sampled Frenet path of the planner: [fp.x], [fp.y], [fp.cost_final]. *)
Module FrenetPath.
Record t := mk { x : list Q; y : list Q; cost_final : Q }.
End FrenetPath.

(** What [planning(...)] returns (line 90); [planner_stats] and
    [processing_time] are never read by the script. *)
Record PlanningResult := mkPlanningResult {
  goal_reached : bool;
  ego_vehicle_trajectory : option Trajectory;
  planned_time_list : list Q;
  fplist : list (list FrenetPath.t)
}.

(** Python exceptions a run can end in: those the script's own statements
    raise, [NotADirectoryError] of the solution writer, and any other
    exception class of a library, by its name.  [OutOfFuel] is not a Python
    exception: it marks a [while] loop of the model that has not finished
    within the fuel it was given. *)
Inductive exn :=
| RuntimeError
| IndexError
| ValueError
| UnboundLocalError
| FileNotFoundError
| UnidentifiedImageError
| NotADirectoryError
| OtherException (class_name : string)
| OutOfFuel.

Global Instance exn_eq_dec : EqDecision exn.
Proof. solve_decision. Defined.

(** ** Drawing model

    A figure is the list of drawing calls made on its axes, in call order,
    together with the axis limits in force.  [plt.figure] opens a fresh figure
    in every loop iteration and [plt.close] discards it, so a figure is a
    local value of the iteration. *)

(** [LineCollection(segments, cmap=..., lw=..., zorder=...)] followed by
    [set_array]; the script never passes [norm], [vmin] or [vmax]. *)
Record LineCollection := mkLineCollection {
  segments : list (list (Q * Q));
  array : list Q;
  cmap : string;
  lc_lw : Q;
  lc_zorder : nat
}.

Record Title := mkTitle { title_method : string; title_n : nat; title_time : Q }.

Inductive Artist :=
| SceneSnapshot (time_begin : nat)
| Collection (lc : LineCollection)
| Colorbar (range : Q * Q)
| Plot (xs ys : list Q) (color : string) (alpha : Q) (zorder : nat) (lw : Q)
| Quiver (xs ys us vs : list Q) (color : string) (zorder : nat) (width : Q).

(** Axis limits: [None] while matplotlib autoscales, [Some (lo, hi)] once
    [plt.xlim(lo, hi)] / [plt.ylim(lo, hi)] has fixed them. *)
Record Axes := mkAxes {
  artists : list Artist;
  xlim : option (Q * Q);
  ylim : option (Q * Q)
}.

Record Figure := mkFigure {
  fig_ax : Axes;
  fig_title : option Title;
  fig_suptitle : option string
}.

Definition new_axes : Axes := mkAxes [] None None.
Definition add_artist (a : Artist) (ax : Axes) : Axes :=
  mkAxes (artists ax ++ [a]) (xlim ax) (ylim ax).
Definition autoscale (ax : Axes) : Axes := mkAxes (artists ax) None None.
Definition set_xlim (lo hi : Q) (ax : Axes) : Axes :=
  mkAxes (artists ax) (Some (lo, hi)) (ylim ax).
Definition set_ylim (lo hi : Q) (ax : Axes) : Axes :=
  mkAxes (artists ax) (xlim ax) (Some (lo, hi)).

(** Reading a figure back: its line collections, its colorbars, the
    polylines drawn in a given colour, and the time step of its scene. *)
Definition collections (f : Figure) : list LineCollection :=
  omap (λ a, match a with Collection lc => Some lc | _ => None end)
       (artists (fig_ax f)).
Definition colorbars (f : Figure) : list (Q * Q) :=
  omap (λ a, match a with Colorbar r => Some r | _ => None end)
       (artists (fig_ax f)).
Definition plots_with_color (c : string) (f : Figure) : list (list Q * list Q) :=
  omap (λ a, match a with
             | Plot xs ys c' _ _ _ => if decide (c' = c) then Some (xs, ys) else None
             | _ => None
             end)
       (artists (fig_ax f)).
Definition frame_index (f : Figure) : option nat :=
  match artists (fig_ax f) with
  | SceneSnapshot t :: _ => Some t
  | _ => None
  end.


(** ** Exceptions as results *)

Definition result (A : Type) : Type := (exn + A)%type.

Global Instance result_ret : MRet result := λ A a, inr a.
Global Instance result_bind : MBind result := λ A B f m,
  match m with
  | inl e => inl e
  | inr a => f a
  end.

(** ** [multiline] (lines 28-63) *)

(** [np.column_stack([x, y])] on two one-dimensional sequences: one row
    [(x_k, y_k)] per sample; numpy raises [ValueError] when the lengths
    differ. *)
Definition column_stack (x y : list Q) : result (list (Q * Q)) :=
  if decide (length x = length y) then inr (zip x y) else inl ValueError.

(** [[np.column_stack([x, y]) for x, y in zip(xs, ys)]] *)
Fixpoint build_segments (xys : list (list Q * list Q))
  : result (list (list (Q * Q))) :=
  match xys with
  | [] => inr []
  | (x, y) :: rest =>
      seg ← column_stack x y;
      segs ← build_segments rest;
      inr (seg :: segs)
  end.

(** The keyword arguments forwarded to [LineCollection]. *)
Record LineKwargs := mkLineKwargs { kw_cmap : string; kw_lw : Q; kw_zorder : nat }.

Definition multiline (xs ys : list (list Q)) (c : list Q) (ax : Axes)
    (kwargs : LineKwargs) : result (LineCollection * Axes) :=
  segments ← build_segments (zip xs ys);
  let lc := mkLineCollection segments c
              (kw_cmap kwargs) (kw_lw kwargs) (kw_zorder kwargs) in
  let ax := add_artist (Collection lc) ax in
  let ax := autoscale ax in
  inr (lc, ax).

(** ** matplotlib's colour scale *)

(** Modelled from the spec: matplotlib's scalar-to-colour mapping, which is
    not under src/.  A collection created without [norm], [vmin] or [vmax]
    takes its colour limits from its own array when it is given a colorbar:
    "a shared, continuous colormap spanning the minimum and maximum cost
    values observed in that call".  An empty array sets no limits. *)
Definition clim (lc : LineCollection) : option (Q * Q) :=
  lo ← Py.min (array lc);
  hi ← Py.max (array lc);
  Some (lo, hi).

(** Modelled from the spec: linear normalisation of a value into the colour
    limits; matplotlib maps every value to 0 when the limits coincide. *)
Definition normalize (lim : Q * Q) (c : Q) : Q :=
  if Qeq_bool (fst lim) (snd lim) then 0
  else (c - fst lim) / (snd lim - fst lim).

(** Modelled from the spec: the colorbar is "keyed to that frame's local
    min/max cost" when the two are apart.  matplotlib passes the limits
    through [transforms.nonsingular(vmin, vmax, expander, tiny=1e-15)]:
    limits that coincide, or nearly so, are widened by [expander] times their
    magnitude on each side, and limits that are both minute are replaced by
    [(-expander, expander)]. *)
Definition tiny : Q := 1 # 1000000000000000.

(** [np.finfo(float).tiny] *)
Definition float_tiny : Q := 1 / inject_Z (2 ^ 1022).

Definition nonsingular (expander : Q) (lim : Q * Q) : Q * Q :=
  let '(vmin, vmax) :=
    if Qlt_le_dec (snd lim) (fst lim) then (snd lim, fst lim) else lim in
  let maxabsvalue := Py.max2 (Qabs vmin) (Qabs vmax) in
  if Qlt_le_dec maxabsvalue (1000000 / tiny * float_tiny) then
    (- expander, expander)
  else if Qle_bool (vmax - vmin) (maxabsvalue * tiny) then
    if Qeq_bool vmax 0 && Qeq_bool vmin 0 then (- expander, expander)
    else (vmin - expander * Qabs vmin, vmax + expander * Qabs vmax)
  else (vmin, vmax).

(** Modelled from the spec: [plt.colorbar(lc)].  The colorbar takes the
    collection's colour limits, [(0, 1)] when none are set, makes them
    non-singular with expander 0.1, and covers the result; from then on the
    collection is drawn with these limits. *)
Definition colorbar_range (lc : LineCollection) : Q * Q :=
  nonsingular (1 # 10) (default (0, 1) (clim lc)).

Definition colorbar (lc : LineCollection) (ax : Axes) : Axes :=
  add_artist (Colorbar (colorbar_range lc)) ax.

(** The position in the colormap at which polyline [j] of a collection with
    a colorbar is drawn. *)
Definition segment_shade (lc : LineCollection) (j : nat) : option Q :=
  c ← array lc !! j;
  Some (normalize (colorbar_range lc) c).

(** ** External collaborators

    The CommonRoad scenario, its obstacles, the collision engine and the
    feasibility checker are libraries the script calls.  Their types are
    abstract here and their operations are the fields of one interface. *)

Class Collaborators := {
  Scenario : Type;
  DynamicObstacle : Type;
  CollisionObject : Type;
  ControlInputs : Type;
  (** [scenario.scenario_id], [scenario.dt], [scenario.dynamic_obstacles] *)
  scenario_id_of : Scenario → string;
  dt : Scenario → Q;
  dynamic_obstacles : Scenario → list DynamicObstacle;
  (** [obs.state_at_time(t)]: [None] when the obstacle has no state at [t] *)
  state_at_time : DynamicObstacle → nat → option State;
  (** [DynamicObstacle(obstacle_id=..., initial_state=..., prediction=...)] *)
  make_dynamic_obstacle : nat → State → Trajectory → DynamicObstacle;
  (** the collision objects [create_collision_checker(scenario)] registers *)
  scenario_collision_objects : Scenario → list CollisionObject;
  create_collision_object : DynamicObstacle → CollisionObject;
  (** second component of [create_road_boundary_obstacle(scenario)] *)
  create_road_boundary_obstacle : Scenario → CollisionObject;
  (** the geometric test between two collision objects *)
  collides : CollisionObject → CollisionObject → bool;
  (** [trajectory_feasibility(trajectory, vehicle_dynamics, dt)] *)
  trajectory_feasibility : Trajectory → Q → bool * ControlInputs;
  (** The functions above are what the library calls of lines 97-144 return
      when they return.  [validation_error] is the exception that the first
      of these calls to raise one ends in, for this scenario, initial state
      and trajectory, and [None] when they all return: a library call can
      reject its arguments, as [trajectory_feasibility] does for a trajectory
      of a single state. *)
  validation_error : Scenario → State → Trajectory → option exn;
  (** [solution.benchmark_id], from which the solution writer names its
      file *)
  benchmark_id : Scenario → string
}.

(** ** The world the script acts on *)

(** [PlanningProblemSolution] wrapped in a [Solution] (lines 137-144). *)
Record Solution := mkSolution {
  solution_scenario_id : string;
  solution_planning_problem_id : nat;
  solution_trajectory : Trajectory
}.

(** The GIF written by [Image.save(..., save_all=True, ...)]. *)
Record Gif := mkGif {
  gif_frames : list Figure;
  gif_duration : Z;
  gif_loop : Z
}.

Inductive File :=
| Jpg (fig : Figure)
| GifFile (g : Gif)
| SolutionFile (s : Solution).

(** The mutable state shared by the loop iterations: the Python list
    [time_list] returned by the planner, the file system, and standard
    output. *)
Record World := mkWorld {
  time_list : list Q;
  files : gmap string File;
  dirs : gset string;
  stdout : list string
}.

Definition M (A : Type) : Type := World → result A * World.

Global Instance M_ret : MRet M := λ A a w, (inr a, w).
Global Instance M_bind : MBind M := λ A B f m w,
  match m w with
  | (inl e, w') => (inl e, w')
  | (inr a, w') => f a w'
  end.

Definition raise {A} (e : exn) : M A := λ w, (inl e, w).
Definition lift {A} (r : result A) : M A := λ w, (r, w).

(** [print(s)] *)
Definition print (s : string) : M unit :=
  λ w, (inr (), mkWorld (time_list w) (files w) (dirs w) (stdout w ++ [s])).

(** [time_list.append(v)] *)
Definition time_list_append (v : Q) : M unit :=
  λ w, (inr (), mkWorld (time_list w ++ [v]) (files w) (dirs w) (stdout w)).

(** [time_list[i]] *)
Definition time_list_get (i : nat) : M Q :=
  λ w, match time_list w !! i with
       | Some v => (inr v, w)
       | None => (inl IndexError, w)
       end.

(** [if not os.path.exists(p): os.makedirs(p); print(...)] *)
Definition ensure_dir (p : string) : M unit :=
  λ w, if decide (p ∈ dirs w) then (inr (), w)
       else print ("Target directory: " +:+ p +:+ " Created")
              (mkWorld (time_list w) (files w) ({[p]} ∪ dirs w) (stdout w)).

Definition write_file (p : string) (f : File) : M unit :=
  λ w, (inr (), mkWorld (time_list w) (<[p := f]> (files w)) (dirs w) (stdout w)).

(** [try: body except RuntimeError: handler] *)
Definition try_except_RuntimeError {A} (body handler : M A) : M A :=
  λ w, match body w with
       | (inl RuntimeError, w') => handler w'
       | r => r
       end.

(** [os.path.join(a, b)] (posixpath). *)
Definition starts_with_slash (s : string) : bool :=
  match s with
  | String "/"%char _ => true
  | _ => false
  end.
Definition ends_with_slash (s : string) : bool :=
  starts_with_slash (String.rev s).
Definition path_join (a b : string) : string :=
  if starts_with_slash b then b
  else if decide (a = "") then b
  else if ends_with_slash a then a +:+ b
  else a +:+ "/" +:+ b.

(** Modelled from the spec: the solution exporter
    ([CommonRoadSolutionWriter.write_to_file], not under src/), which "writes
    a single self-contained record" and replaces an existing one when
    [overwrite] is set.  The record is a file inside the directory
    [output_path]; the writer creates no directory and raises
    [NotADirectoryError] when [output_path] does not exist. *)
Definition write_to_file (output_path filename : string) (f : File) : M unit :=
  λ w, if decide (output_path ∈ dirs w)
       then write_file (path_join output_path filename) f w
       else (inl NotADirectoryError, w).

(** ** [planning_example] (lines 66-321) *)

Section PlanningExample.
Context `{Collaborators}.

(** What the script reads from disk and from the planner: the scenario and
    the planning problem of line 82-84, and the result of [planning] (line
    90). *)
Record ScriptInputs := mkScriptInputs {
  cwd : string;
  scenario : Scenario;
  initial_state : State;
  planning_problem_id : nat;
  planned : PlanningResult
}.

(** Settings (lines 68-80). *)
Definition method : string := "FISS+".
Definition show_visualization : bool := false.
Definition save_traj_visualization : bool := false.
Definition save_allFrenet_visualization : bool := true.
Definition dataset : string := "demo/".
Definition result_dir : string := "results/".
Definition file : string := "DEU_Flensburg-1_1_T-1.xml".
Definition root_dir (inp : ScriptInputs) : string := path_join (cwd inp) "data/".

(** *** Validation (lines 104-133) *)

(** Modelled from the spec: the collision checker of the collision engine,
    which is not under src/.  It holds collision objects; adding an object
    extends the same structure, and [collide] answers whether any object it
    holds collides with the argument. *)
Record CollisionChecker := mkCollisionChecker { cc_objects : list CollisionObject }.

Definition create_collision_checker (sc : Scenario) : CollisionChecker :=
  mkCollisionChecker (scenario_collision_objects sc).
Definition add_collision_object (o : CollisionObject) (cc : CollisionChecker)
  : CollisionChecker :=
  mkCollisionChecker (cc_objects cc ++ [o]).
Definition collide (cc : CollisionChecker) (o : CollisionObject) : bool :=
  existsb (λ c, collides c o) (cc_objects cc).

(** The locals the validation code computes. *)
Record ValidationResult := mkValidationResult {
  res_collision : bool;
  res_outofbound : bool;
  feasible : bool;
  reconstructed_inputs : ControlInputs
}.

Definition validate (sc : Scenario) (ego_vehicle : DynamicObstacle)
    (ego_vehicle_trajectory : Trajectory) : ValidationResult :=
  let cc := create_collision_checker sc in
  let ego_vehicle_co := create_collision_object ego_vehicle in
  let res_collision := collide cc ego_vehicle_co in
  let road_boundary := create_road_boundary_obstacle sc in
  let cc := add_collision_object road_boundary cc in
  let res_outofbound := collide cc ego_vehicle_co in
  let '(feasible, reconstructed_inputs) :=
    trajectory_feasibility ego_vehicle_trajectory (dt sc) in
  mkValidationResult res_collision res_outofbound feasible reconstructed_inputs.

(** *** Probing an obstacle's trajectory (lines 278-284)

    [while obs.state_at_time(t) is not None: ...; t += 1].  The loop need not
    terminate for an arbitrary obstacle, so it takes fuel: one unit per
    evaluation of the loop test.  [queried] records every call of
    [state_at_time], in call order: one for the test and, when the test
    succeeds, one for each of the two [append]s. *)
Record Probe := mkProbe {
  obs_traj_x : list Q;
  obs_traj_y : list Q;
  queried : list nat
}.

Fixpoint probe_from (fuel : nat) (obs : DynamicObstacle) (t : nat) (p : Probe)
  : option Probe :=
  match fuel with
  | O => None
  | S fuel =>
      match state_at_time obs t with
      | None => Some (mkProbe (obs_traj_x p) (obs_traj_y p) (queried p ++ [t]))
      | Some s =>
          probe_from fuel obs (S t)
            (mkProbe (obs_traj_x p ++ [fst (position s)])
                     (obs_traj_y p ++ [snd (position s)])
                     (queried p ++ [t; t; t]))
      end
  end.

Definition probe (fuel : nat) (obs : DynamicObstacle) : option Probe :=
  probe_from fuel obs 0 (mkProbe [] [] []).

(** *** The viewport (lines 260-275)

    The limits as the drawing model carries them, in exact arithmetic;
    [Float64.square_limits] below is the same code on binary64 floats. *)

Definition square_limits (x_coords y_coords : list Q)
  : result ((Q * Q) * (Q * Q)) :=
  match Py.min x_coords, Py.max x_coords, Py.min y_coords, Py.max y_coords with
  | Some min_x, Some max_x, Some min_y, Some max_y =>
      let x_min := min_x - 8 in
      let x_max := max_x + 8 in
      let y_min := min_y - 8 in
      let y_max := max_y + 8 in
      let l := Py.max2 (x_max - x_min) (y_max - y_min) in
      if Qeq_bool l (x_max - x_min) then
        inr ((x_min, x_max),
             (y_min - (l - (y_max - y_min)) / 2,
              y_max + (l - (y_max - y_min)) / 2))
      else
        inr ((x_min - (l - (x_max - x_min)) / 2,
              x_max + (l - (x_max - x_min)) / 2),
             (y_min, y_max))
  | _, _, _, _ => inl ValueError
  end.

(** *** One dynamic obstacle (lines 277-292) *)

Definition draw_obstacle (fuel i : nat) (obs : DynamicObstacle) (ax : Axes)
  : result Axes :=
  match probe fuel obs with
  | None => inl OutOfFuel
  | Some p =>
      let dx := Py.diff (obs_traj_x p) in
      let dy := Py.diff (obs_traj_y p) in
      let obs_traj_x := Py.but_last (obs_traj_x p) in
      let obs_traj_y := Py.but_last (obs_traj_y p) in
      let ax := add_artist
        (Quiver (Py.stride 5 (Py.slice_to i obs_traj_x))
                (Py.stride 5 (Py.slice_to i obs_traj_y))
                (Py.stride 5 (Py.slice_to i dx))
                (Py.stride 5 (Py.slice_to i dy)) "#BA55D3" 25 0.006) ax in
      let ax := add_artist
        (Quiver (Py.stride 5 (Py.slice_from i obs_traj_x))
                (Py.stride 5 (Py.slice_from i obs_traj_y))
                (Py.stride 5 (Py.slice_from i dx))
                (Py.stride 5 (Py.slice_from i dy)) "#1d7eea" 25 0.006) ax in
      let ax := add_artist
        (Plot (Py.slice 0 i obs_traj_x) (Py.slice 0 i obs_traj_y)
              "#BA55D3" 0.8 25 0.6) ax in
      let ax := add_artist
        (Plot (Py.slice_from i obs_traj_x) (Py.slice_from i obs_traj_y)
              "#1d7eea" 0.8 25 0.6) ax in
      inr ax
  end.

Fixpoint draw_obstacles (fuel i : nat) (obss : list DynamicObstacle) (ax : Axes)
  : result Axes :=
  match obss with
  | [] => inr ax
  | obs :: obss =>
      ax ← draw_obstacle fuel i obs ax;
      draw_obstacles fuel i obss ax
  end.

(** *** Composing the figure of step [i] (lines 229-297) *)

(** [os.path.splitext(file)[0]] *)
Definition scenario_id : string := "DEU_Flensburg-1_1_T-1".

Definition ego_x (l : list State) : list Q := (λ state, fst (position state)) <$> l.
Definition ego_y (l : list State) : list Q := (λ state, snd (position state)) <$> l.

Definition compose_frame (fuel : nat) (inp : ScriptInputs)
    (ego_vehicle_trajectory : Trajectory) (i : nat)
    (candidates : list FrenetPath.t) : M Figure :=
  (* the renderer draws scenario, ego vehicle and planning problem at time i *)
  let ax := add_artist (SceneSnapshot i) new_axes in
  let costs := FrenetPath.cost_final <$> candidates in
  let xs := (λ fp, Py.slice_from 1 (FrenetPath.x fp)) <$> candidates in
  let ys := (λ fp, Py.slice_from 1 (FrenetPath.y fp)) <$> candidates in
  '(lc, ax) ← lift (multiline xs ys costs ax (mkLineKwargs "RdYlGn_r" 2 20));
  let ax := colorbar lc ax in
  let x_coords := ego_x (state_list ego_vehicle_trajectory) in
  let y_coords := ego_y (state_list ego_vehicle_trajectory) in
  let x_coords_p := ego_x (Py.slice 0 i (state_list ego_vehicle_trajectory)) in
  let y_coords_p := ego_y (Py.slice 0 i (state_list ego_vehicle_trajectory)) in
  let x_coords_f := ego_x (Py.slice_from i (state_list ego_vehicle_trajectory)) in
  let y_coords_f := ego_y (Py.slice_from i (state_list ego_vehicle_trajectory)) in
  let dx_ego_f := Py.diff x_coords_f in
  let dy_ego_f := Py.diff y_coords_f in
  let ax := add_artist (Plot x_coords_p y_coords_p "#9400D3" 1 25 1) ax in
  let ax := add_artist (Plot x_coords_f y_coords_f "#AFEEEE" 1 25 1) ax in
  let ax := add_artist
    (Quiver (Py.stride 5 (Py.but_last x_coords_f))
            (Py.stride 5 (Py.but_last y_coords_f))
            (Py.stride 5 dx_ego_f) (Py.stride 5 dy_ego_f)
            "#AFEEEE" 26 0.009) ax in
  '(xl, yl) ← lift (square_limits x_coords y_coords);
  let ax := set_xlim (fst xl) (snd xl) ax in
  let ax := set_ylim (fst yl) (snd yl) ax in
  ax ← lift (draw_obstacles fuel i (dynamic_obstacles (scenario inp)) ax);
  time_list_append 0;;
  time ← time_list_get i;
  let title := mkTitle method (length candidates) (Py.round3 time) in
  mret (mkFigure ax (Some title) (Some ("Scenario ID: " +:+ scenario_id))).

(** *** Saving the figure and reopening it (lines 298-310) *)

(** A PIL image returned by [Image.open]: a handle on the file, whose pixel
    data is read when the image is saved into the GIF. *)
Definition Image : Type := string.

Definition image_open (p : string) : M Image :=
  λ w, match files w !! p with
       | Some (Jpg _) => (inr p, w)
       | Some _ => (inl UnidentifiedImageError, w)
       | None => (inl FileNotFoundError, w)
       end.

Definition image_load (im : Image) : M Figure :=
  λ w, match files w !! im with
       | Some (Jpg fig) => (inr fig, w)
       | Some _ => (inl UnidentifiedImageError, w)
       | None => (inl FileNotFoundError, w)
       end.

Definition result_path (inp : ScriptInputs) : string :=
  path_join (path_join (path_join (path_join (root_dir inp) result_dir)
    "gif_cache") method) scenario_id.

Definition file_path (inp : ScriptInputs) (i : nat) : string :=
  path_join (result_path inp) (pretty i +:+ ".jpg").

Definition save_frame (inp : ScriptInputs) (i : nat) (fig : Figure) : M Image :=
  ensure_dir (result_path inp);;
  write_file (file_path inp i) (Jpg fig);;
  print ("Fig saved to: " +:+ file_path inp i);;
  image_open (file_path inp i).

(** One iteration of the loop of line 226, and the loop itself:
    [for i in range(len(fplist))], reading [fplist[i]].  The loop carries the
    locals that outlive it: [images], and [scenario_id], which is bound by
    the first iteration (line 296). *)
Definition frame_body (fuel : nat) (inp : ScriptInputs)
    (ego_vehicle_trajectory : Trajectory) (i : nat)
    (candidates : list FrenetPath.t) : M Image :=
  fig ← compose_frame fuel inp ego_vehicle_trajectory i candidates;
  save_frame inp i fig.

Fixpoint frame_loop (fuel : nat) (inp : ScriptInputs)
    (ego_vehicle_trajectory : Trajectory) (i : nat)
    (rest : list (list FrenetPath.t))
    (images : list Image) (scenario_id_local : option string)
  : M (list Image * option string) :=
  match rest with
  | [] => mret (images, scenario_id_local)
  | candidates :: rest =>
      im ← frame_body fuel inp ego_vehicle_trajectory i candidates;
      frame_loop fuel inp ego_vehicle_trajectory (S i) rest
        (images ++ [im]) (Some scenario_id)
  end.

(** *** Encoding the GIF (lines 312-318) *)

(** Modelled from the spec: PIL's [Image.save] with [save_all=True], which is
    not under src/: the artifact holds the image itself followed by
    [append_images], in that order, with the given per-frame duration in
    milliseconds and loop count (0: loop forever). *)
Fixpoint image_load_all (ims : list Image) : M (list Figure) :=
  match ims with
  | [] => mret []
  | im :: ims =>
      fig ← image_load im;
      figs ← image_load_all ims;
      mret (fig :: figs)
  end.

Definition image_save (im : Image) (p : string) (append_images : list Image)
    (duration loop : Z) : M unit :=
  figs ← image_load_all (im :: append_images);
  write_file p (GifFile (mkGif figs duration loop)).

Definition gif_dirpath (inp : ScriptInputs) : string :=
  path_join (path_join (path_join (root_dir inp) result_dir) "gif/") method.

Definition gif_filepath (inp : ScriptInputs) (scenario_id : string) : string :=
  path_join (gif_dirpath inp) (scenario_id +:+ ".gif").

(** [images[0].save(gif_filepath, save_all=True, append_images=images[1:],
    optimize=True, duration=100, loop=0)] *)
Definition save_gif (images : list Image) (p : string) : M unit :=
  match images with
  | [] => raise IndexError
  | im :: append_images => image_save im p append_images 100 0
  end.

Definition encode (inp : ScriptInputs) (images : list Image)
    (scenario_id_local : option string) : M unit :=
  ensure_dir (gif_dirpath inp);;
  match scenario_id_local with
  | None => raise UnboundLocalError
  | Some scenario_id =>
      save_gif images (gif_filepath inp scenario_id);;
      print ("Gif saved to: " +:+ gif_filepath inp scenario_id)
  end.

(** The animated export (lines 223-318). *)
Definition animated_export (fuel : nat) (inp : ScriptInputs)
    (ego_vehicle_trajectory : Trajectory) : M unit :=
  '(images, scenario_id_local) ←
    frame_loop fuel inp ego_vehicle_trajectory 0 (fplist (planned inp)) [] None;
  encode inp images scenario_id_local.

(** *** The whole function *)

Definition set_time_list (l : list Q) : M unit :=
  λ w, (inr (), mkWorld l (files w) (dirs w) (stdout w)).

(** The file the solution writer writes (line 220): no [filename] is
    passed, so the writer names it after the solution's benchmark id. *)
Definition solution_filename (inp : ScriptInputs) : string :=
  "solution_" +:+ benchmark_id (scenario inp) +:+ ".xml".

Definition solution_path (inp : ScriptInputs) : string :=
  path_join "./data/solution" (solution_filename inp).

(** Lines 137-318: the solution file and the exports.  Nothing here reads
    the validation locals. *)
Definition export_block (fuel : nat) (inp : ScriptInputs)
    (ego_vehicle_trajectory : Trajectory) : M unit :=
  let solution := mkSolution (scenario_id_of (scenario inp))
                    (planning_problem_id inp) ego_vehicle_trajectory in
  write_to_file "./data/solution" (solution_filename inp)
    (SolutionFile solution);;
  if save_allFrenet_visualization
  then animated_export fuel inp ego_vehicle_trajectory
  else mret ().

(** Lines 97-144: the validation code.  Its library calls either all return,
    and the locals are those of [validate], or one of them raises. *)
Definition validation (inp : ScriptInputs)
    (ego_vehicle_trajectory : Trajectory) : result ValidationResult :=
  match validation_error (scenario inp) (initial_state inp)
          ego_vehicle_trajectory with
  | Some e => inl e
  | None =>
      let ego_vehicle :=
        make_dynamic_obstacle 100 (initial_state inp) ego_vehicle_trajectory in
      inr (validate (scenario inp) ego_vehicle ego_vehicle_trajectory)
  end.

(** The [try] block (lines 87-318).  [show_visualization] and
    [save_traj_visualization] are the constant [False], so lines 148-215 do
    not run.  The value returned is the validation locals, which the script
    computes and then leaves unused; an exception of a validation call ends
    the block before anything is written. *)
Definition try_block (fuel : nat) (inp : ScriptInputs) : M ValidationResult :=
  set_time_list (planned_time_list (planned inp));;
  match ego_vehicle_trajectory (planned inp) with
  | None =>
      print "No ego vehicle trajectory found";;
      raise RuntimeError
  | Some ego_vehicle_trajectory =>
      locals ← lift (validation inp ego_vehicle_trajectory);
      export_block fuel inp ego_vehicle_trajectory;;
      mret locals
  end.

Definition planning_example (fuel : nat) (inp : ScriptInputs) : M unit :=
  try_except_RuntimeError
    (try_block fuel inp;; mret ())
    (print ("    " +:+ file +:+ " not feasible, proceding to next file!")).

End PlanningExample.

(** ** A concrete scene, used to run the model *)

Module Demo.

Record DemoScenario := mkDemoScenario {
  demo_static : list (list Z);
  demo_dynamic : list (list State);
  demo_boundary : list Z
}.

(** Collision objects are sets of occupied cells; two objects collide when
    they share a cell.  A dynamic obstacle is the list of its states, one per
    time step from 0, and occupies the cells its x positions fall in. *)
Definition share_cell (a b : list Z) : bool :=
  existsb (λ c, bool_decide (c ∈ b)) a.

Global Instance demo_collaborators : Collaborators := {|
  Scenario := DemoScenario;
  DynamicObstacle := list State;
  CollisionObject := list Z;
  ControlInputs := unit;
  scenario_id_of := λ _, "DEU_Flensburg-1";
  dt := λ _, 0.1;
  dynamic_obstacles := demo_dynamic;
  state_at_time := λ obs t, obs !! t;
  make_dynamic_obstacle := λ _ _ traj, state_list traj;
  scenario_collision_objects := demo_static;
  create_collision_object := λ obs, (λ s, Qfloor (fst (position s))) <$> obs;
  create_road_boundary_obstacle := demo_boundary;
  collides := share_cell;
  trajectory_feasibility := λ _ _, (true, ());
  validation_error := λ _ _ traj,
    if decide (length (state_list traj) < 2)%nat
    then Some (OtherException "Exception") else None;
  benchmark_id := λ _, "PM3:WX1:DEU_Flensburg-1_1_T-1:2020a"
|}.

Definition st (px py : Q) : State := mkState (px, py).

Definition ego : Trajectory :=
  mkTrajectory [st 0 0; st 1 0; st 2 1; st 4 1].

Definition other : DynamicObstacle := [st 10 5; st 9 5; st 8 5].

Definition scene : Scenario :=
  mkDemoScenario [[20%Z; 21%Z]] [other] [(-3)%Z; 30%Z].

(** A scene in which the ego vehicle runs into a static obstacle. *)
Definition crash_scene : Scenario :=
  mkDemoScenario [[2%Z; 3%Z]] [other] [(-3)%Z; 30%Z].

Definition cand (c : Q) (px py : list Q) : FrenetPath.t := FrenetPath.mk px py c.

Definition candidates0 : list FrenetPath.t :=
  [cand 1 [0; 1; 2] [0; 0; 1]; cand 5 [0; 1] [0; 1]].
Definition candidates1 : list FrenetPath.t :=
  [cand 3 [1; 2; 3; 4] [0; 1; 1; 1]].

Definition inputs (traj : option Trajectory) (times : list Q)
    (fps : list (list FrenetPath.t)) : ScriptInputs :=
  mkScriptInputs "/home/user" scene (st 0 0) 7
    (mkPlanningResult true traj times fps).

Definition empty_world : World := mkWorld [] ∅ ∅ [].

(** A world in which the directory of the solution file exists. *)
Definition ready_world : World := mkWorld [] ∅ {["./data/solution"]} [].

(** A world in which the planner's time list has an entry for two steps. *)
Definition timed_world : World := mkWorld [0.5; 0.25] ∅ ∅ [].

End Demo.

(** ** Vocabulary of the statements *)

(** The artists [draw_obstacle] adds: quivers, and polylines in one of the
    two obstacle colours. *)
Definition obstacle_artist (a : Artist) : Prop :=
  match a with
  | Quiver _ _ _ _ _ _ _ => True
  | Plot _ _ c _ _ _ => c = "#BA55D3" ∨ c = "#1d7eea"
  | _ => False
  end.

(** The axes of step [i] just before the obstacles are drawn. *)
Definition ego_axes (i : nat) (lc : LineCollection) (sl : list State)
    (xl yl : Q * Q) : Axes :=
  mkAxes
    [SceneSnapshot i; Collection lc; Colorbar (colorbar_range lc);
     Plot (ego_x (Py.slice 0 i sl)) (ego_y (Py.slice 0 i sl)) "#9400D3" 1 25 1;
     Plot (ego_x (Py.slice_from i sl)) (ego_y (Py.slice_from i sl)) "#AFEEEE" 1 25 1;
     Quiver (Py.stride 5 (Py.but_last (ego_x (Py.slice_from i sl))))
            (Py.stride 5 (Py.but_last (ego_y (Py.slice_from i sl))))
            (Py.stride 5 (Py.diff (ego_x (Py.slice_from i sl))))
            (Py.stride 5 (Py.diff (ego_y (Py.slice_from i sl))))
            "#AFEEEE" 26 0.009]
    (Some xl) (Some yl).

(** The candidate polylines handed to [multiline] at one step. *)
Definition candidate_xs (candidates : list FrenetPath.t) : list (list Q) :=
  (λ fp, Py.slice_from 1 (FrenetPath.x fp)) <$> candidates.
Definition candidate_ys (candidates : list FrenetPath.t) : list (list Q) :=
  (λ fp, Py.slice_from 1 (FrenetPath.y fp)) <$> candidates.

(** The world in which the export starts: the planner's time list is
    bound and the solution file is written. *)
Definition export_world `{Collaborators} (inp : ScriptInputs) (traj : Trajectory) (w : World)
  : World :=
  mkWorld (planned_time_list (planned inp))
    (<[solution_path inp :=
        SolutionFile (mkSolution (scenario_id_of (scenario inp))
                        (planning_problem_id inp) traj)]> (files w))
    (dirs w) (stdout w).

(** An action that cannot end in exception [e], whatever the world. *)
Definition never_raises {A} (e : exn) (m : M A) : Prop :=
  ∀ w, fst (m w) ≠ inl e.

(** The same collaborators with another collision test and another
    feasibility checker. *)
Definition with_validation (H : Collaborators)
    (collides' : @CollisionObject H → @CollisionObject H → bool)
    (trajectory_feasibility' : Trajectory → Q → bool * @ControlInputs H)
  : Collaborators := {|
  Scenario := @Scenario H;
  DynamicObstacle := @DynamicObstacle H;
  CollisionObject := @CollisionObject H;
  ControlInputs := @ControlInputs H;
  scenario_id_of := @scenario_id_of H;
  dt := @dt H;
  dynamic_obstacles := @dynamic_obstacles H;
  state_at_time := @state_at_time H;
  make_dynamic_obstacle := @make_dynamic_obstacle H;
  scenario_collision_objects := @scenario_collision_objects H;
  create_collision_object := @create_collision_object H;
  create_road_boundary_obstacle := @create_road_boundary_obstacle H;
  collides := collides';
  trajectory_feasibility := trajectory_feasibility';
  validation_error := @validation_error H;
  benchmark_id := @benchmark_id H
|}.

(** The script inputs, read under the collaborators [with_validation H]. *)
Definition with_validation_inputs (H : Collaborators) collides' feasibility'
    (inp : @ScriptInputs H)
  : @ScriptInputs (with_validation H collides' feasibility') :=
  @mkScriptInputs (with_validation H collides' feasibility')
    (cwd inp) (scenario inp) (initial_state inp) (planning_problem_id inp)
    (planned inp).

(** [lra] with the halving of [square_limits] written as a product. *)
Ltac halves_lra :=
  unfold Qdiv in *; change (/ 2) with (1 # 2) in *; lra.

(** Unfolds [compose_frame] at a world and splits on the three steps that
    can fail before the time list is touched. *)
Ltac frame_cases :=
  unfold compose_frame, mbind, M_bind, lift;
  destruct (multiline _ _ _ _ _) as [?|[? ?]];
  [|destruct (square_limits _ _) as [?|[? ?]];
    [|destruct (draw_obstacles _ _ _ _) as [?|?];
      [|unfold time_list_append, time_list_get, mret, M_ret]]];
  simpl; try done.

(** ** Further vocabulary *)

(** The artists [draw_obstacle] adds, with their colours: quivers and
    polylines in one of the two obstacle colours. *)
Definition obstacle_coloured (a : Artist) : Prop :=
  match a with
  | Quiver _ _ _ _ c _ _ => c = "#BA55D3" ∨ c = "#1d7eea"
  | Plot _ _ c _ _ _ => c = "#BA55D3" ∨ c = "#1d7eea"
  | _ => False
  end.

(** The quivers of a figure drawn in a given colour: positions and arrow
    components. *)
Definition quivers_with_color (c : string) (f : Figure)
  : list (list Q * list Q * list Q * list Q) :=
  omap (λ a, match a with
             | Quiver xs ys us vs c' _ _ =>
                 if decide (c' = c) then Some (xs, ys, us, vs) else None
             | _ => None
             end)
       (artists (fig_ax f)).

(** The last character of a string. *)
Fixpoint last_char (s : string) : option ascii :=
  match s with
  | EmptyString => None
  | String a EmptyString => Some a
  | String _ s' => last_char s'
  end.

(** ** A scene whose obstacles are given by their state function *)

Module GapDemo.

(** The collaborators of [Demo], except that a dynamic obstacle is its
    [state_at_time] function itself, so that it can have gaps or states at
    every index. *)
Definition gap_collaborators : Collaborators := {|
  Scenario := list (nat → option State);
  DynamicObstacle := nat → option State;
  CollisionObject := list Z;
  ControlInputs := unit;
  scenario_id_of := λ _, "DEU_Flensburg-1";
  dt := λ _, 0.1;
  dynamic_obstacles := λ sc, sc;
  state_at_time := λ obs t, obs t;
  make_dynamic_obstacle := λ _ _ traj t, state_list traj !! t;
  scenario_collision_objects := λ _, [];
  create_collision_object := λ _, [];
  create_road_boundary_obstacle := λ _, [];
  collides := Demo.share_cell;
  trajectory_feasibility := λ _ _, (true, ());
  validation_error := λ _ _ _, None;
  benchmark_id := λ _, "PM3:WX1:DEU_Flensburg-1_1_T-1:2020a"
|}.

(** States at the indices 0, 1 and 3, none at 2. *)
Definition gapped : @DynamicObstacle gap_collaborators :=
  λ t, match t with
       | 0 => Some (Demo.st 10 5)
       | 1 => Some (Demo.st 9 5)
       | 3 => Some (Demo.st 7 5)
       | _ => None
       end%nat.

(** A state at every index. *)
Definition endless : @DynamicObstacle gap_collaborators :=
  λ t, Some (Demo.st (inject_Z (Z.of_nat t)) 0).

End GapDemo.

(** ** The static overview (lines 166-203)

    The drawing calls of the block guarded by [save_traj_visualization], up
    to the axis limits.  Lines 192-203, which compute and set the limits, are
    indented under the [for] over the dynamic obstacles, so they run once per
    obstacle.  The arithmetic of lines 193-203 is that of lines 260-275:
    [square_limits]. *)

Section TrajVisualization.
Context `{Collaborators}.

(** One iteration of the loop of line 179. *)
Definition overview_obstacle (fuel : nat) (x_coords y_coords : list Q)
    (obs : DynamicObstacle) (ax : Axes) : result Axes :=
  match probe fuel obs with
  | None => inl OutOfFuel
  | Some p =>
      let dx := Py.diff (obs_traj_x p) in
      let dy := Py.diff (obs_traj_y p) in
      let ax := add_artist
        (Quiver (Py.stride 5 (Py.but_last (obs_traj_x p)))
                (Py.stride 5 (Py.but_last (obs_traj_y p)))
                (Py.stride 5 dx) (Py.stride 5 dy) "#1d7eea" 25 0.008) ax in
      let ax := add_artist
        (Plot (obs_traj_x p) (obs_traj_y p) "#1d7eea" 0.8 26 1) ax in
      '(xl, yl) ← square_limits x_coords y_coords;
      let ax := set_xlim (fst xl) (snd xl) ax in
      let ax := set_ylim (fst yl) (snd yl) ax in
      inr ax
  end.

Fixpoint overview_obstacles (fuel : nat) (x_coords y_coords : list Q)
    (obss : list DynamicObstacle) (ax : Axes) : result Axes :=
  match obss with
  | [] => inr ax
  | obs :: obss =>
      ax ← overview_obstacle fuel x_coords y_coords obs ax;
      overview_obstacles fuel x_coords y_coords obss ax
  end.

(** Lines 167-203. *)
Definition traj_visualization_axes (fuel : nat) (inp : ScriptInputs)
    (ego_vehicle_trajectory : Trajectory) : result Axes :=
  let ax := add_artist (SceneSnapshot 0) new_axes in
  let x_coords := ego_x (state_list ego_vehicle_trajectory) in
  let y_coords := ego_y (state_list ego_vehicle_trajectory) in
  let ax := add_artist (Plot x_coords y_coords "green" 1 25 8) ax in
  overview_obstacles fuel x_coords y_coords
    (dynamic_obstacles (scenario inp)) ax.

End TrajVisualization.

(** ** The viewport arithmetic in binary64

    Lines 260-275 once more, on the numbers Python computes with.
    [PrimFloat.float] is IEEE 754 binary64 with rounding to nearest, ties to
    even: Python's [float].  [min] and [max] keep the first extremal
    element. *)

Module Float64.
Import PrimFloat.
Local Open Scope float_scope.

Definition min2 (a b : float) : float := if ltb b a then b else a.
Definition max2 (a b : float) : float := if ltb a b then b else a.

Definition min (l : list float) : option float :=
  match l with
  | [] => None
  | a :: l' => Some (fold_left min2 l' a)
  end.

Definition max (l : list float) : option float :=
  match l with
  | [] => None
  | a :: l' => Some (fold_left max2 l' a)
  end.

Definition square_limits (x_coords y_coords : list float)
  : result ((float * float) * (float * float)) :=
  match min x_coords, max x_coords, min y_coords, max y_coords with
  | Some min_x, Some max_x, Some min_y, Some max_y =>
      let x_min := min_x - 8 in
      let x_max := max_x + 8 in
      let y_min := min_y - 8 in
      let y_max := max_y + 8 in
      let l := max2 (x_max - x_min) (y_max - y_min) in
      if eqb l (x_max - x_min) then
        inr ((x_min, x_max),
             (y_min - (l - (y_max - y_min)) / 2,
              y_max + (l - (y_max - y_min)) / 2))
      else
        inr ((x_min - (l - (x_max - x_min)) / 2,
              x_max + (l - (x_max - x_min)) / 2),
             (y_min, y_max))
  | _, _, _, _ => inl ValueError
  end.


End Float64.

(** ** Colour limits a colorbar keeps *)

(** Limits that [nonsingular] leaves alone: in order, not both minute, and
    further apart than [tiny] times their magnitude. *)
Definition regular (lim : Q * Q) : Prop :=
  fst lim <= snd lim ∧
  1000000 / tiny * float_tiny <= Py.max2 (Qabs (fst lim)) (Qabs (snd lim)) ∧
  Py.max2 (Qabs (fst lim)) (Qabs (snd lim)) * tiny < snd lim - fst lim.

(** * Properties *)

(** ** Python helpers *)

Lemma fold_min2_le (l : list Q) (a : Q) :
  fold_left Py.min2 l a <= a ∧ ∀ v, v ∈ l → fold_left Py.min2 l a <= v.
Proof.
  revert a. induction l as [|b l IH]; intros a; simpl.
  - split; [apply Qle_refl | intros v Hv; inversion Hv].
  - destruct (IH (Py.min2 a b)) as [Ha Hl].
    assert (Hm : Py.min2 a b <= a ∧ Py.min2 a b <= b).
    { unfold Py.min2. destruct (Qlt_le_dec b a); split; lra. }
    split; [lra|].
    intros v Hv. apply elem_of_cons in Hv as [->|Hv]; [lra | auto].
Qed.

Lemma fold_min2_elem (l : list Q) (a : Q) :
  fold_left Py.min2 l a ∈ a :: l.
Proof.
  revert a. induction l as [|b l IH]; intros a; simpl; [left|].
  specialize (IH (Py.min2 a b)).
  apply elem_of_cons in IH as [->|IH].
  - unfold Py.min2. destruct (Qlt_le_dec b a); [right; left | left].
  - right; right; exact IH.
Qed.

Lemma fold_max2_ge (l : list Q) (a : Q) :
  a <= fold_left Py.max2 l a ∧ ∀ v, v ∈ l → v <= fold_left Py.max2 l a.
Proof.
  revert a. induction l as [|b l IH]; intros a; simpl.
  - split; [apply Qle_refl | intros v Hv; inversion Hv].
  - destruct (IH (Py.max2 a b)) as [Ha Hl].
    assert (Hm : a <= Py.max2 a b ∧ b <= Py.max2 a b).
    { unfold Py.max2. destruct (Qlt_le_dec a b); split; lra. }
    split; [lra|].
    intros v Hv. apply elem_of_cons in Hv as [->|Hv]; [lra | auto].
Qed.

Lemma fold_max2_elem (l : list Q) (a : Q) :
  fold_left Py.max2 l a ∈ a :: l.
Proof.
  revert a. induction l as [|b l IH]; intros a; simpl; [left|].
  specialize (IH (Py.max2 a b)).
  apply elem_of_cons in IH as [->|IH].
  - unfold Py.max2. destruct (Qlt_le_dec a b); [right; left | left].
  - right; right; exact IH.
Qed.

Lemma py_min_spec (l : list Q) :
  l ≠ [] → ∃ m, Py.min l = Some m ∧ m ∈ l ∧ ∀ v, v ∈ l → m <= v.
Proof.
  destruct l as [|a l]; [done|]. intros _. eexists. split; [reflexivity|].
  split; [apply fold_min2_elem|].
  intros v Hv. destruct (fold_min2_le l a) as [Ha Hl].
  apply elem_of_cons in Hv as [->|Hv]; auto.
Qed.

Lemma py_max_spec (l : list Q) :
  l ≠ [] → ∃ m, Py.max l = Some m ∧ m ∈ l ∧ ∀ v, v ∈ l → v <= m.
Proof.
  destruct l as [|a l]; [done|]. intros _. eexists. split; [reflexivity|].
  split; [apply fold_max2_elem|].
  intros v Hv. destruct (fold_max2_ge l a) as [Ha Hl].
  apply elem_of_cons in Hv as [->|Hv]; auto.
Qed.

(** ** The obstacle probing loop *)

Section ProbeProperties.
Context `{Collaborators}.

Implicit Types (obs : DynamicObstacle) (p : Probe).

(** The x and y positions the loop reads at index [j]. *)
Local Abbreviation px obs j :=
  (from_option (λ s, fst (position s)) 0 (state_at_time obs j)).
Local Abbreviation py obs j :=
  (from_option (λ s, snd (position s)) 0 (state_at_time obs j)).
Local Abbreviation triple := (λ j : nat, [j; j; j]).

Lemma probe_from_known obs k :
  (∀ j, j < k → is_Some (state_at_time obs j))%nat →
  state_at_time obs k = None →
  ∀ n t p fuel, (t + n = k)%nat → (n < fuel)%nat →
    probe_from fuel obs t p =
      Some (mkProbe (obs_traj_x p ++ ((λ j, px obs j) <$> seq t n))
                    (obs_traj_y p ++ ((λ j, py obs j) <$> seq t n))
                    (queried p ++ (seq t n ≫= triple) ++ [k])).
Proof.
  intros Hsome Hnone n.
  induction n as [|n IH]; intros t p fuel Ht Hfuel.
  - destruct fuel as [|fuel]; [lia|]. simpl.
    replace t with k by lia. rewrite Hnone.
    by rewrite !app_nil_r.
  - destruct fuel as [|fuel]; [lia|]. simpl.
    destruct (Hsome t ltac:(lia)) as [s Hs]. rewrite Hs.
    rewrite (IH (S t)) by lia. simpl.
    by rewrite <- !app_assoc.
Qed.

Lemma probe_from_starved obs k :
  (∀ j, j < k → is_Some (state_at_time obs j))%nat →
  ∀ fuel t p, (t + fuel ≤ k)%nat → probe_from fuel obs t p = None.
Proof.
  intros Hsome fuel.
  induction fuel as [|fuel IH]; intros t p Ht; [done|]. simpl.
  destruct (Hsome t ltac:(lia)) as [s ->]. apply IH. lia.
Qed.

(** C9.  An obstacle that has a state at exactly the time indices [0..k-1]:
    the probing loop terminates (any fuel above [k] is enough, and [k] tests
    or fewer are not), it has collected exactly [k] points, the point at
    position [j] being the position of the state at index [j], and its
    queries are the indices [0, 1, ..., k] in increasing order (three calls
    per index below [k], one call at [k]): the last query is the first
    missing index [k] and no index above [k] is ever queried. *)
Theorem probe_terminates_at_first_missing obs (k : nat) :
  (∀ j, j < k → is_Some (state_at_time obs j))%nat →
  (∀ j, k ≤ j → state_at_time obs j = None)%nat →
  (∀ fuel, (fuel ≤ k)%nat → probe fuel obs = None) ∧
  ∀ fuel, (k < fuel)%nat →
    ∃ p, probe fuel obs = Some p ∧
      length (obs_traj_x p) = k ∧ length (obs_traj_y p) = k ∧
      (∀ j s, state_at_time obs j = Some s →
         obs_traj_x p !! j = Some (fst (position s)) ∧
         obs_traj_y p !! j = Some (snd (position s))) ∧
      queried p = (seq 0 k ≫= triple) ++ [k] ∧
      last (queried p) = Some k ∧
      Forall (λ q, q ≤ k)%nat (queried p).
Proof.
  intros Hsome Hnone. split.
  { intros fuel Hfuel. apply (probe_from_starved obs k Hsome). lia. }
  intros fuel Hfuel. eexists. split.
  { unfold probe.
    apply (probe_from_known obs k Hsome (Hnone k (le_n k)) k 0); [done|lia]. }
  simpl. rewrite !length_fmap, !length_seq.
  split; [done|]. split; [done|]. split.
  { intros j s Hs.
    assert (Hj : (j < k)%nat).
    { destruct (decide (j < k)%nat) as [|Hge]; [done|].
      rewrite Hnone in Hs by lia. done. }
    rewrite !list_lookup_fmap, !lookup_seq_lt by done. simpl.
    by rewrite Hs. }
  split; [done|]. split; [apply last_snoc|].
  apply Forall_app. split; [|by repeat constructor].
  apply Forall_forall. intros q Hq.
  apply list_elem_of_bind in Hq as (j & Hq & Hj).
  apply elem_of_seq in Hj.
  repeat (apply elem_of_cons in Hq as [->|Hq]; [lia|]). inversion Hq.
Qed.

End ProbeProperties.

Lemma probe_terminates_at_first_missing_witness :
  ∃ p, probe 4 Demo.other = Some p ∧
       obs_traj_x p = [10; 9; 8] ∧ obs_traj_y p = [5; 5; 5] ∧
       queried p = [0; 0; 0; 1; 1; 1; 2; 2; 2; 3]%nat.
Proof.
  destruct (probe_terminates_at_first_missing Demo.other 3) as [_ Hrun].
  - intros j Hj. simpl.
    destruct j as [|[|[|j]]]; simpl; eauto; lia.
  - intros j Hj. simpl. apply lookup_ge_None_2. simpl. lia.
  - destruct (Hrun 4%nat ltac:(lia)) as (p & Hp & _).
    exists p. split; [exact Hp|].
    vm_compute in Hp. injection Hp as <-. repeat split; reflexivity.
Defined.

(** ** Shape of a composed figure *)

Section FrameProperties.
Context `{Collaborators}.

Lemma draw_obstacle_inv fuel i obs ax ax' :
  draw_obstacle fuel i obs ax = inr ax' →
  xlim ax' = xlim ax ∧ ylim ax' = ylim ax ∧
  ∃ extra, artists ax' = artists ax ++ extra ∧ Forall obstacle_artist extra.
Proof.
  unfold draw_obstacle. destruct (probe fuel obs) as [p|]; [|done].
  intros [= <-]. simpl. split; [done|]. split; [done|].
  eexists. rewrite <- !app_assoc. split; [reflexivity|].
  repeat apply Forall_cons_2; try apply Forall_nil_2; simpl; auto.
Qed.

Lemma draw_obstacles_inv fuel i obss ax ax' :
  draw_obstacles fuel i obss ax = inr ax' →
  xlim ax' = xlim ax ∧ ylim ax' = ylim ax ∧
  ∃ extra, artists ax' = artists ax ++ extra ∧ Forall obstacle_artist extra.
Proof.
  revert ax. induction obss as [|obs obss IH]; intros ax; simpl.
  - intros [= <-]. repeat split. exists []. by rewrite app_nil_r.
  - unfold mbind, result_bind.
    destruct (draw_obstacle fuel i obs ax) as [e|ax1] eqn:Hobs; [done|].
    intros Hrest. apply IH in Hrest as (Hx & Hy & extra2 & Hart2 & Hall2).
    apply draw_obstacle_inv in Hobs as (Hx1 & Hy1 & extra1 & Hart1 & Hall1).
    split; [congruence|]. split; [congruence|].
    exists (extra1 ++ extra2). rewrite Hart2, Hart1, app_assoc.
    split; [done|]. by apply Forall_app.
Qed.

Lemma compose_frame_inv fuel inp traj i candidates w fig w' :
  compose_frame fuel inp traj i candidates w = (inr fig, w') →
  ∃ segs xl yl extra time,
    build_segments (zip (candidate_xs candidates) (candidate_ys candidates))
      = inr segs ∧
    square_limits (ego_x (state_list traj)) (ego_y (state_list traj))
      = inr (xl, yl) ∧
    Forall obstacle_artist extra ∧
    (time_list w ++ [0]) !! i = Some time ∧
    w' = mkWorld (time_list w ++ [0]) (files w) (dirs w) (stdout w) ∧
    let lc := mkLineCollection segs (FrenetPath.cost_final <$> candidates)
                "RdYlGn_r" 2 20 in
    let ax := ego_axes i lc (state_list traj) xl yl in
    fig = mkFigure (mkAxes (artists ax ++ extra) (xlim ax) (ylim ax))
            (Some (mkTitle method (length candidates) (Py.round3 time)))
            (Some ("Scenario ID: " +:+ scenario_id)).
Proof.
  unfold compose_frame, multiline, candidate_xs, candidate_ys.
  unfold mbind at 1, M_bind, lift.
  destruct (build_segments _) as [e|segs] eqn:Hsegs; [done|]. simpl.
  unfold mbind at 1, M_bind.
  destruct (square_limits _ _) as [e|[xl yl]] eqn:Hlim; [done|]. simpl.
  unfold mbind at 1, M_bind.
  destruct (draw_obstacles _ _ _ _) as [e|ax'] eqn:Hobs; [done|].
  apply draw_obstacles_inv in Hobs as (Hx & Hy & extra & Hart & Hall).
  unfold mbind, M_bind, time_list_append, time_list_get, mret, M_ret. simpl.
  destruct ((time_list w ++ [0]) !! i) as [time|] eqn:Htime; [|done].
  intros [= <- <-].
  exists segs, xl, yl, extra, time. repeat (split; [done|]).
  simpl. destruct ax' as [arts xl' yl']. simpl in *. subst.
  by destruct xl, yl.
Qed.

End FrameProperties.

Lemma build_segments_inv (xys : list (list Q * list Q)) segs :
  build_segments xys = inr segs →
  segs = (λ xy, zip (fst xy) (snd xy)) <$> xys ∧
  Forall (λ xy, length (fst xy) = length (snd xy)) xys.
Proof.
  revert segs. induction xys as [|[x y] xys IH]; intros segs; simpl.
  - intros [= <-]. by split.
  - unfold column_stack, mbind, result_bind.
    destruct (decide (length x = length y)) as [Hlen|]; [|done].
    destruct (build_segments xys) as [e|segs'] eqn:Hrest; [done|].
    intros [= <-]. destruct (IH segs' eq_refl) as [-> Hall].
    split; [done|]. by constructor.
Qed.

Lemma build_segments_total (xys : list (list Q * list Q)) :
  Forall (λ xy, length (fst xy) = length (snd xy)) xys →
  build_segments xys = inr ((λ xy, zip (fst xy) (snd xy)) <$> xys).
Proof.
  induction 1 as [|[x y] xys Hlen Hall IH]; simpl; [done|].
  unfold column_stack, mbind, result_bind. simpl in Hlen.
  rewrite decide_True by done. by rewrite IH.
Qed.

Lemma obstacle_artists_no_collection extra :
  Forall obstacle_artist extra →
  omap (λ a, match a with Collection lc => Some lc | _ => None end) extra = [].
Proof.
  induction 1 as [|a extra Ha _ IH]; [done|].
  destruct a; simpl in *; try done.
Qed.

Lemma obstacle_artists_no_colorbar extra :
  Forall obstacle_artist extra →
  omap (λ a, match a with Colorbar r => Some r | _ => None end) extra = [].
Proof.
  induction 1 as [|a extra Ha _ IH]; [done|].
  destruct a; simpl in *; try done.
Qed.

Lemma obstacle_artists_other_color (c : string) extra :
  c ≠ "#BA55D3" → c ≠ "#1d7eea" →
  Forall obstacle_artist extra →
  omap (λ a, match a with
             | Plot xs ys c' _ _ _ => if decide (c' = c) then Some (xs, ys) else None
             | _ => None
             end) extra = [].
Proof.
  intros Hc1 Hc2. induction 1 as [|a extra Ha _ IH]; [done|].
  destruct a; simpl in *; try done.
  destruct Ha as [-> | ->]; by rewrite decide_False.
Qed.

Section OverlayProperties.
Context `{Collaborators}.

Lemma compose_frame_collections fuel inp traj i candidates w fig w' :
  compose_frame fuel inp traj i candidates w = (inr fig, w') →
  ∃ segs,
    build_segments (zip (candidate_xs candidates) (candidate_ys candidates))
      = inr segs ∧
    collections fig =
      [mkLineCollection segs (FrenetPath.cost_final <$> candidates)
         "RdYlGn_r" 2 20].
Proof.
  intros Hrun.
  apply compose_frame_inv in Hrun
    as (segs & xl & yl & extra & time & Hsegs & _ & Hextra & _ & _ & ->).
  exists segs. split; [done|].
  unfold collections. simpl.
  by rewrite obstacle_artists_no_collection.
Qed.

(** C10.  In every composed frame the candidate overlay is one collection
    with one polyline per candidate, in candidate order, and the polyline of
    a candidate holds its samples from index 1 onward: point [k] of the
    polyline is sample [k + 1] of the candidate, so the first sample is never
    drawn.  A candidate with exactly two samples yields a polyline of a
    single point. *)
Theorem overlay_drops_first_sample fuel inp traj i candidates w fig w' :
  compose_frame fuel inp traj i candidates w = (inr fig, w') →
  ∃ lc, collections fig = [lc] ∧
    length (segments lc) = length candidates ∧
    ∀ j fp, candidates !! j = Some fp →
      ∃ seg, segments lc !! j = Some seg ∧
        seg = zip (drop 1 (FrenetPath.x fp)) (drop 1 (FrenetPath.y fp)) ∧
        length seg = (length (FrenetPath.x fp) - 1)%nat ∧
        (∀ k px py, seg !! k = Some (px, py) ↔
           FrenetPath.x fp !! S k = Some px ∧ FrenetPath.y fp !! S k = Some py) ∧
        (length (FrenetPath.x fp) = 2%nat →
         ∃ x0 x1 y0 y1,
           FrenetPath.x fp = [x0; x1] ∧ FrenetPath.y fp = [y0; y1] ∧
           seg = [(x1, y1)]).
Proof.
  intros Hrun.
  apply compose_frame_collections in Hrun as (segs & Hsegs & Hcoll).
  apply build_segments_inv in Hsegs as [-> Hlen].
  eexists. split; [exact Hcoll|]. simpl.
  unfold candidate_xs, candidate_ys in *.
  split. { by rewrite length_fmap, length_zip, !length_fmap, Nat.min_id. }
  intros j fp Hfp.
  assert (Hxy : zip ((λ fp, Py.slice_from 1 (FrenetPath.x fp)) <$> candidates)
                    ((λ fp, Py.slice_from 1 (FrenetPath.y fp)) <$> candidates)
                  !! j
                = Some (drop 1 (FrenetPath.x fp), drop 1 (FrenetPath.y fp))).
  { apply lookup_zip_with_Some. eexists _, _. split; [done|].
    rewrite !list_lookup_fmap, Hfp. done. }
  eexists. split. { rewrite list_lookup_fmap, Hxy. done. }
  simpl. split; [done|].
  pose proof (proj1 (Forall_lookup _ _) Hlen _ _ Hxy) as Hl. simpl in Hl.
  split. { rewrite length_zip, <- Hl, Nat.min_id, length_drop. done. }
  split.
  { intros k px py. rewrite lookup_zip_with_Some, !lookup_drop. simpl.
    split.
    - intros (a & b & [= -> ->] & Ha & Hb). done.
    - intros [Ha Hb]. eauto. }
  intros H2. rewrite !length_drop in Hl.
  destruct (FrenetPath.x fp) as [|x0 [|x1 [|]]]; try done.
  destruct (FrenetPath.y fp) as [|y0 [|y1 [|]]]; try done.
  by exists x0, x1, y0, y1.
Qed.

End OverlayProperties.

Lemma overlay_drops_first_sample_witness :
  ∃ fig, fst (compose_frame 10 (Demo.inputs (Some Demo.ego) [0.5]
                [Demo.candidates0; Demo.candidates1]) Demo.ego 0
                Demo.candidates0 Demo.empty_world) = inr fig ∧
         segments <$> collections fig = [[[(1, 0); (2, 1)]; [(1, 1)]]].
Proof.
  destruct (compose_frame 10 (Demo.inputs (Some Demo.ego) [0.5]
              [Demo.candidates0; Demo.candidates1]) Demo.ego 0
              Demo.candidates0 Demo.empty_world) as [[e|fig] w'] eqn:Hrun;
    [vm_compute in Hrun; discriminate|].
  destruct (overlay_drops_first_sample _ _ _ _ _ _ _ _ Hrun)
    as (lc & Hlc & _).
  exists fig. split; [reflexivity|].
  vm_compute in Hrun. injection Hrun as <- _. reflexivity.
Defined.

(** ** The ego polylines *)

Section EgoProperties.
Context `{Collaborators}.

(** C3, as the code has it.  In the frame of step [t] the past polyline
    (colour #9400D3) holds the positions of the states at indices below [t]
    and the future polyline (colour #AFEEEE) those of the states from index
    [t] to the end; the two polylines are consecutive pieces of the
    trajectory, and the state at index [t] belongs to the future one only. *)
Theorem ego_past_future_split fuel inp traj t candidates w fig w' :
  compose_frame fuel inp traj t candidates w = (inr fig, w') →
  ∃ past future,
    plots_with_color "#9400D3" fig = [(ego_x past, ego_y past)] ∧
    plots_with_color "#AFEEEE" fig = [(ego_x future, ego_y future)] ∧
    (∀ j, past !! j = if decide (j < t)%nat then state_list traj !! j else None) ∧
    (∀ j, future !! j = state_list traj !! (t + j)%nat) ∧
    length past = Nat.min t (length (state_list traj)) ∧
    past ++ future = state_list traj.
Proof.
  intros Hrun.
  apply compose_frame_inv in Hrun
    as (segs & xl & yl & extra & time & _ & _ & Hextra & _ & _ & ->).
  exists (take t (state_list traj)), (drop t (state_list traj)).
  unfold plots_with_color. simpl.
  rewrite !obstacle_artists_other_color by done.
  split; [done|]. split; [done|]. split.
  { intros j. destruct (decide (j < t)%nat).
    - by apply lookup_take_lt.
    - apply lookup_take_ge. lia. }
  split; [apply lookup_drop|].
  split; [apply length_take | apply take_drop].
Qed.

End EgoProperties.

Lemma ego_past_future_split_witness :
  ∃ fig, fst (compose_frame 10 (Demo.inputs (Some Demo.ego) [0.5]
                [Demo.candidates0; Demo.candidates1]) Demo.ego 1
                Demo.candidates1 Demo.timed_world) = inr fig ∧
         plots_with_color "#9400D3" fig = [([0], [0])] ∧
         plots_with_color "#AFEEEE" fig = [([1; 2; 4], [0; 1; 1])].
Proof.
  destruct (compose_frame 10 (Demo.inputs (Some Demo.ego) [0.5]
              [Demo.candidates0; Demo.candidates1]) Demo.ego 1
              Demo.candidates1 Demo.timed_world) as [[e|fig] w'] eqn:Hrun;
    [vm_compute in Hrun; discriminate|].
  destruct (ego_past_future_split _ _ _ _ _ _ _ _ Hrun)
    as (past & future & _).
  exists fig. split; [reflexivity|].
  vm_compute in Hrun. injection Hrun as <- _. split; reflexivity.
Defined.

(** C3 as the specification states it fails: at step 1 of a trajectory of
    four states the past polyline is not the positions of the states at
    indices 0 and 1; it stops before the state at index 1. *)
Lemma ego_past_includes_current_counterexample :
  ∃ fig, fst (compose_frame 10 (Demo.inputs (Some Demo.ego) [0.5]
                [Demo.candidates0; Demo.candidates1]) Demo.ego 1
                Demo.candidates1 Demo.timed_world) = inr fig ∧
         plots_with_color "#9400D3" fig ≠
           [(ego_x (take (S 1) (state_list Demo.ego)),
             ego_y (take (S 1) (state_list Demo.ego)))].
Proof.
  eexists. split; [vm_compute; reflexivity|].
  vm_compute. discriminate.
Qed.

(** ** The viewport *)

(** In the exact arithmetic of the drawing model the limits are defined
    whenever both coordinate lists are non-empty. *)
Lemma square_limits_spec (xs ys : list Q) :
  xs ≠ [] → ys ≠ [] →
  ∃ min_x max_x min_y max_y x_lo x_hi y_lo y_hi pad,
    Py.min xs = Some min_x ∧ Py.max xs = Some max_x ∧
    Py.min ys = Some min_y ∧ Py.max ys = Some max_y ∧
    square_limits xs ys = inr ((x_lo, x_hi), (y_lo, y_hi)) ∧
    x_hi - x_lo == y_hi - y_lo ∧
    0 <= pad ∧
    ((x_lo = min_x - 8 ∧ x_hi = max_x + 8 ∧
      y_lo == min_y - 8 - pad ∧ y_hi == max_y + 8 + pad) ∨
     (y_lo = min_y - 8 ∧ y_hi = max_y + 8 ∧
      x_lo == min_x - 8 - pad ∧ x_hi == max_x + 8 + pad)).
Proof.
  intros Hxs Hys.
  destruct (py_min_spec xs Hxs) as (min_x & Hmin_x & _ & _).
  destruct (py_max_spec xs Hxs) as (max_x & Hmax_x & _ & _).
  destruct (py_min_spec ys Hys) as (min_y & Hmin_y & _ & _).
  destruct (py_max_spec ys Hys) as (max_y & Hmax_y & _ & _).
  exists min_x, max_x, min_y, max_y.
  unfold square_limits. rewrite Hmin_x, Hmax_x, Hmin_y, Hmax_y.
  set (sx := max_x + 8 - (min_x - 8)). set (sy := max_y + 8 - (min_y - 8)).
  destruct (Qeq_bool (Py.max2 sx sy) sx) eqn:Heq.
  - apply Qeq_bool_iff in Heq.
    assert (Hle : sy <= Py.max2 sx sy).
    { unfold Py.max2. destruct (Qlt_le_dec sx sy); lra. }
    eexists _, _, _, _, ((Py.max2 sx sy - sy) / 2).
    repeat (split; [reflexivity|]).
    split; [subst sx sy; halves_lra|]. split; [halves_lra|].
    left. repeat (split; [reflexivity|]). subst sx sy. split; halves_lra.
  - assert (Hmax : Py.max2 sx sy = sy ∧ sx <= sy).
    { unfold Py.max2 in *. destruct (Qlt_le_dec sx sy); [split; [done|lra]|].
      rewrite Qeq_bool_refl in Heq. done. }
    destruct Hmax as [-> Hle].
    eexists _, _, _, _, ((sy - sx) / 2).
    repeat (split; [reflexivity|]).
    split; [subst sx sy; halves_lra|]. split; [halves_lra|].
    right. repeat (split; [reflexivity|]). subst sx sy. split; halves_lra.
Qed.

(** ** The colour scale of one [multiline] call *)

Lemma regular_apart (lo hi : Q) : regular (lo, hi) → lo < hi.
Proof.
  intros (_ & _ & Hgap). simpl in Hgap.
  assert (0 <= Py.max2 (Qabs lo) (Qabs hi) * tiny); [|lra].
  apply Qmult_le_0_compat; [|done].
  unfold Py.max2. destruct (Qlt_le_dec _ _); apply Qabs_nonneg.
Qed.

Lemma nonsingular_regular (expander : Q) (lim : Q * Q) :
  regular lim → nonsingular expander lim = lim.
Proof.
  destruct lim as [lo hi]. intros (Hord & Hbig & Hgap).
  unfold nonsingular. cbn [fst snd] in *.
  destruct (Qlt_le_dec hi lo) as [Hlt|_]; [lra|].
  destruct (Qlt_le_dec (Py.max2 (Qabs lo) (Qabs hi)) _) as [Hlt|_]; [lra|].
  destruct (Qle_bool _ _) eqn:Hle; [|done].
  apply Qle_bool_iff in Hle. lra.
Qed.

Lemma normalize_apart (lo hi c : Q) :
  lo < hi → normalize (lo, hi) c = (c - lo) / (hi - lo).
Proof.
  intros Hlt. unfold normalize. cbn [fst snd].
  destruct (Qeq_bool lo hi) eqn:Heq; [|done].
  apply Qeq_bool_iff in Heq. lra.
Qed.

Lemma shade_bounds (lo hi c : Q) :
  lo < hi → lo <= c → c <= hi →
  0 <= (c - lo) / (hi - lo) ∧ (c - lo) / (hi - lo) <= 1.
Proof.
  intros Hlt Hlo Hhi. assert (Hpos : 0 < hi - lo) by lra. split.
  - apply Qle_shift_div_l; [done|]. lra.
  - apply Qle_shift_div_r; [done|]. lra.
Qed.

Lemma colorbar_range_regular segs costs c l z (lo hi : Q) :
  Py.min costs = Some lo → Py.max costs = Some hi → regular (lo, hi) →
  colorbar_range (mkLineCollection segs costs c l z) = (lo, hi).
Proof.
  intros Hmin Hmax Hreg. unfold colorbar_range, clim. cbn [array].
  rewrite Hmin, Hmax. cbn [mbind option_bind default].
  by apply nonsingular_regular.
Qed.

Lemma obstacle_artists_colorbars (arts extra : list Artist) :
  Forall obstacle_artist extra →
  omap (λ a, match a with Colorbar r => Some r | _ => None end) (arts ++ extra)
  = omap (λ a, match a with Colorbar r => Some r | _ => None end) arts.
Proof.
  intros Hextra. rewrite omap_app.
  rewrite (obstacle_artists_no_colorbar extra Hextra). by rewrite app_nil_r.
Qed.

Section ColourScaleProperties.
Context `{Collaborators}.

(** C4.  One call of [multiline] with as many paths as costs (each path with
    as many x as y samples), whose smallest cost [lo] and largest cost [hi]
    are limits that matplotlib keeps: the call succeeds and adds to the axes
    one collection with one polyline per path, in order, carrying the call's
    costs and one colormap; the colorbar made from the collection is added
    after it and covers exactly [(lo, hi)], two costs of this call that bound
    all the others; and path [j] is drawn at [(c_j - lo) / (hi - lo)], a
    position of [0, 1] that depends on the costs of this call alone.  In a
    composed frame whose candidates have these costs the collection and the
    colorbar are those: one collection, one colorbar over [(lo, hi)]. *)
Theorem multiline_local_colour_scale (xs ys : list (list Q)) (costs : list Q)
    (ax : Axes) (kwargs : LineKwargs) (lo hi : Q) :
  Py.min costs = Some lo → Py.max costs = Some hi →
  regular (lo, hi) →
  length xs = length costs →
  Forall2 (λ x y, length x = length y) xs ys →
  (∃ lc ax',
     multiline xs ys costs ax kwargs = inr (lc, ax') ∧
     segments lc = zip_with zip xs ys ∧
     length (segments lc) = length costs ∧
     array lc = costs ∧ cmap lc = kw_cmap kwargs ∧
     artists ax' = artists ax ++ [Collection lc] ∧
     artists (colorbar lc ax')
       = artists ax ++ [Collection lc; Colorbar (lo, hi)] ∧
     (∀ j c, costs !! j = Some c →
        segment_shade lc j = Some ((c - lo) / (hi - lo)) ∧
        0 <= (c - lo) / (hi - lo) ∧ (c - lo) / (hi - lo) <= 1)) ∧
  lo ∈ costs ∧ hi ∈ costs ∧ lo < hi ∧
  (∀ c, c ∈ costs → lo <= c ∧ c <= hi) ∧
  (∀ fuel inp traj t candidates w fig w',
     FrenetPath.cost_final <$> candidates = costs →
     compose_frame fuel inp traj t candidates w = (inr fig, w') →
     ∃ segs,
       collections fig = [mkLineCollection segs costs "RdYlGn_r" 2 20] ∧
       length segs = length costs ∧
       colorbars fig = [(lo, hi)]).
Proof.
  intros Hmin Hmax Hreg Hlen Hxy.
  assert (Hne : costs ≠ []) by (by destruct costs).
  destruct (py_min_spec costs Hne) as (lo' & Hmin' & Hlo_in & Hlo).
  destruct (py_max_spec costs Hne) as (hi' & Hmax' & Hhi_in & Hhi).
  rewrite Hmin in Hmin'. rewrite Hmax in Hmax'.
  injection Hmin' as <-. injection Hmax' as <-.
  pose proof (regular_apart lo hi Hreg) as Hlt.
  assert (Hsegs : build_segments (zip xs ys) = inr (zip_with zip xs ys)).
  { rewrite build_segments_total.
    - f_equal. clear. revert ys.
      induction xs as [|x xs IH]; intros [|y ys]; simpl; f_equal; auto.
    - clear -Hxy. induction Hxy; simpl; constructor; auto. }
  split; [|split; [done|split; [done|split; [done|split]]]].
  - eexists _, _. unfold multiline. rewrite Hsegs. simpl.
    split; [reflexivity|]. simpl.
    split; [done|]. split.
    { rewrite length_zip_with, <- (Forall2_length _ _ _ Hxy), Nat.min_id. done. }
    split; [done|]. split; [done|]. split; [done|]. split.
    { unfold colorbar, add_artist. cbn [artists].
      rewrite (colorbar_range_regular _ _ _ _ _ lo hi Hmin Hmax Hreg).
      by rewrite <- app_assoc. }
    intros j c Hc. unfold segment_shade. cbn [array]. rewrite Hc.
    cbn [mbind option_bind].
    rewrite (colorbar_range_regular _ _ _ _ _ lo hi Hmin Hmax Hreg).
    rewrite normalize_apart by done. split; [done|].
    apply list_elem_of_lookup_2 in Hc.
    apply shade_bounds; [done | by apply Hlo | by apply Hhi].
  - intros c Hc. split; auto.
  - intros fuel inp traj t candidates w fig w' Hcosts Hrun.
    apply compose_frame_inv in Hrun
      as (segs & xl & yl & extra & time & Hbuild & _ & Hextra & _ & _ & ->).
    rewrite Hcosts. exists segs. split; [|split].
    + unfold collections. cbn [fig_ax artists ego_axes].
      by rewrite omap_app, (obstacle_artists_no_collection extra Hextra).
    + apply build_segments_inv in Hbuild as [-> _].
      rewrite length_fmap, length_zip. unfold candidate_xs, candidate_ys.
      rewrite !length_fmap, Nat.min_id. by rewrite <- Hcosts, length_fmap.
    + unfold colorbars. cbn [fig_ax artists ego_axes].
      rewrite (obstacle_artists_colorbars _ extra Hextra). cbn [omap list_omap].
      by rewrite (colorbar_range_regular _ _ _ _ _ lo hi Hmin Hmax Hreg).
Qed.

End ColourScaleProperties.

Lemma multiline_local_colour_scale_witness :
  regular (1, 5) ∧
  ∃ lc ax',
    multiline (candidate_xs Demo.candidates0) (candidate_ys Demo.candidates0)
      [1; 5] new_axes (mkLineKwargs "RdYlGn_r" 2 20) = inr (lc, ax') ∧
    artists (colorbar lc ax') = [Collection lc; Colorbar (1, 5)] ∧
    segment_shade lc 0 = Some ((1 - 1) / (5 - 1)) ∧
    segment_shade lc 1 = Some ((5 - 1) / (5 - 1)).
Proof.
  assert (Hreg : regular (1, 5)).
  { unfold regular. cbn [fst snd]. split; [lra|]. split.
    - vm_compute. discriminate.
    - vm_compute. reflexivity. }
  split; [exact Hreg|].
  destruct (multiline_local_colour_scale (H := Demo.demo_collaborators)
              (candidate_xs Demo.candidates0) (candidate_ys Demo.candidates0)
              [1; 5] new_axes (mkLineKwargs "RdYlGn_r" 2 20) 1 5)
    as ((lc & ax' & Hrun & _ & _ & _ & _ & _ & Hbar & Hshade) & _).
  - reflexivity.
  - reflexivity.
  - exact Hreg.
  - reflexivity.
  - repeat constructor.
  - exists lc, ax'. split; [exact Hrun|]. split; [exact Hbar|].
    split; [apply (Hshade 0%nat 1) | apply (Hshade 1%nat 5)]; reflexivity.
Defined.

(** C4, as the spec words it, fails for a call with a single cost (or with
    equal costs): the smallest and the largest cost coincide, and the
    colorbar does not cover that point range but a range widened around
    it. *)
Lemma single_cost_colorbar_counterexample :
  ∃ lc ax' r,
    multiline [[1; 2]] [[0; 1]] [3] new_axes (mkLineKwargs "RdYlGn_r" 2 20)
      = inr (lc, ax') ∧
    Py.min [3] = Some 3 ∧ Py.max [3] = Some 3 ∧
    artists (colorbar lc ax') = [Collection lc; Colorbar r] ∧
    r ≠ (3, 3) ∧ fst r < 3 ∧ 3 < snd r.
Proof.
  eexists _, _, _.
  split; [reflexivity|]. split; [reflexivity|]. split; [reflexivity|].
  split; [vm_compute; reflexivity|].
  split; [discriminate|]. split; vm_compute; reflexivity.
Qed.

(** ** Validation *)

Section ValidationProperties.
Context `{Collaborators}.

(** C5.  The two collision flags of the validation code: the first is the
    answer of a checker holding exactly the scenario's collision objects, the
    second the answer, for the same ego object, of that checker after the
    road boundary has been added to it.  The second is the first or-ed with
    the test against the boundary, so it is true whenever the first is. *)
Theorem boundary_flag_extends_obstacle_flag (sc : Scenario)
    (ego_vehicle : DynamicObstacle) (traj : Trajectory) :
  let v := validate sc ego_vehicle traj in
  let cc := create_collision_checker sc in
  let ego_vehicle_co := create_collision_object ego_vehicle in
  let road_boundary := create_road_boundary_obstacle sc in
  cc_objects cc = scenario_collision_objects sc ∧
  cc_objects (add_collision_object road_boundary cc)
    = scenario_collision_objects sc ++ [road_boundary] ∧
  res_collision v = collide cc ego_vehicle_co ∧
  res_outofbound v = collide (add_collision_object road_boundary cc) ego_vehicle_co ∧
  res_outofbound v = res_collision v || collides road_boundary ego_vehicle_co ∧
  (res_collision v = true → res_outofbound v = true).
Proof.
  intros v cc co rb. subst v. unfold validate.
  destruct (trajectory_feasibility traj (dt sc)) as [feas inputs]. simpl.
  fold cc co rb.
  assert (Hor : collide (add_collision_object rb cc) co
                = collide cc co || collides rb co).
  { unfold collide, add_collision_object. simpl.
    rewrite existsb_app. simpl. by rewrite orb_false_r. }
  do 5 (split; [done|]).
  intros Hc. rewrite Hor, Hc. done.
Qed.

End ValidationProperties.

Lemma boundary_flag_extends_obstacle_flag_witness :
  res_collision (validate Demo.crash_scene (state_list Demo.ego) Demo.ego) = true ∧
  res_outofbound (validate Demo.crash_scene (state_list Demo.ego) Demo.ego) = true.
Proof.
  assert (Hc : res_collision
                 (validate Demo.crash_scene (state_list Demo.ego) Demo.ego)
               = true) by reflexivity.
  split; [exact Hc|].
  apply (boundary_flag_extends_obstacle_flag
           Demo.crash_scene (state_list Demo.ego) Demo.ego).
  exact Hc.
Defined.

(** ** Which exceptions the run can raise *)

Lemma never_raises_bind {A B} (e : exn) (m : M A) (f : A → M B) :
  never_raises e m → (∀ a, never_raises e (f a)) → never_raises e (m ≫= f).
Proof.
  intros Hm Hf w. unfold mbind, M_bind.
  specialize (Hm w). destruct (m w) as [[e'|a] w1]; simpl in *.
  - congruence.
  - apply Hf.
Qed.

Lemma never_raises_ret {A} (e : exn) (a : A) : never_raises e (mret a).
Proof. by intros w. Qed.

Lemma never_raises_raise {A} (e e' : exn) :
  e' ≠ e → never_raises e (raise (A:=A) e').
Proof. intros Hne w. simpl. congruence. Qed.

Lemma never_raises_lift {A} (e : exn) (r : result A) :
  r ≠ inl e → never_raises e (lift r).
Proof. by intros Hne w. Qed.

Lemma never_raises_print e s : never_raises e (print s).
Proof. by intros w. Qed.

Lemma never_raises_write_file e p f : never_raises e (write_file p f).
Proof. by intros w. Qed.

Lemma never_raises_ensure_dir e p : never_raises e (ensure_dir p).
Proof. intros w. unfold ensure_dir. by destruct (decide _). Qed.

Lemma never_raises_time_list_append e v : never_raises e (time_list_append v).
Proof. by intros w. Qed.

Lemma never_raises_time_list_get i : never_raises RuntimeError (time_list_get i).
Proof. intros w. unfold time_list_get. by destruct (_ !! _). Qed.

Lemma never_raises_image_open p : never_raises RuntimeError (image_open p).
Proof. intros w. unfold image_open. by repeat case_match. Qed.

Lemma never_raises_image_load im : never_raises RuntimeError (image_load im).
Proof. intros w. unfold image_load. by repeat case_match. Qed.

Lemma never_raises_image_load_all ims :
  never_raises RuntimeError (image_load_all ims).
Proof.
  induction ims as [|im ims IH]; simpl; [apply never_raises_ret|].
  apply never_raises_bind; [apply never_raises_image_load|]. intros fig.
  apply never_raises_bind; [exact IH|]. intros figs. apply never_raises_ret.
Qed.

Lemma build_segments_error xys e :
  build_segments xys = inl e → e = ValueError.
Proof.
  induction xys as [|[x y] xys IH]; simpl; [done|].
  unfold column_stack, mbind, result_bind.
  destruct (decide _); [|congruence].
  destruct (build_segments xys); [auto|done].
Qed.

Lemma multiline_error xs ys c ax kwargs e :
  multiline xs ys c ax kwargs = inl e → e = ValueError.
Proof.
  unfold multiline, mbind, result_bind.
  destruct (build_segments _) eqn:Hsegs; [|done].
  intros [= <-]. by eapply build_segments_error.
Qed.

Lemma square_limits_error xs ys e :
  square_limits xs ys = inl e → e = ValueError.
Proof. unfold square_limits. repeat case_match; congruence. Qed.

Section RunProperties.
Context `{Collaborators}.

Lemma draw_obstacles_error fuel i obss ax e :
  draw_obstacles fuel i obss ax = inl e → e = OutOfFuel.
Proof.
  revert ax. induction obss as [|obs obss IH]; intros ax; simpl; [done|].
  unfold mbind, result_bind.
  destruct (draw_obstacle fuel i obs ax) eqn:Hobs; [|by apply IH].
  unfold draw_obstacle in Hobs. destruct (probe fuel obs); congruence.
Qed.

Lemma never_raises_compose_frame fuel inp traj i candidates :
  never_raises RuntimeError (compose_frame fuel inp traj i candidates).
Proof.
  unfold compose_frame.
  apply never_raises_bind.
  { apply never_raises_lift. intros Herr. by apply multiline_error in Herr. }
  intros [lc ax].
  apply never_raises_bind.
  { apply never_raises_lift. intros Herr. by apply square_limits_error in Herr. }
  intros [xl yl].
  apply never_raises_bind.
  { apply never_raises_lift. intros Herr. by apply draw_obstacles_error in Herr. }
  intros ax'.
  apply never_raises_bind; [apply never_raises_time_list_append|]. intros _.
  apply never_raises_bind; [apply never_raises_time_list_get|]. intros time.
  apply never_raises_ret.
Qed.

Lemma never_raises_frame_body fuel inp traj i candidates :
  never_raises RuntimeError (frame_body fuel inp traj i candidates).
Proof.
  unfold frame_body, save_frame.
  apply never_raises_bind; [apply never_raises_compose_frame|]. intros fig.
  apply never_raises_bind; [apply never_raises_ensure_dir|]. intros _.
  apply never_raises_bind; [apply never_raises_write_file|]. intros _.
  apply never_raises_bind; [apply never_raises_print|]. intros _.
  apply never_raises_image_open.
Qed.

Lemma never_raises_frame_loop fuel inp traj rest :
  ∀ i images loc,
    never_raises RuntimeError (frame_loop fuel inp traj i rest images loc).
Proof.
  induction rest as [|candidates rest IH]; intros i images loc; simpl.
  - apply never_raises_ret.
  - apply never_raises_bind; [apply never_raises_frame_body|]. intros im.
    apply IH.
Qed.

Lemma never_raises_encode inp images loc :
  never_raises RuntimeError (encode inp images loc).
Proof.
  unfold encode.
  apply never_raises_bind; [apply never_raises_ensure_dir|]. intros _.
  destruct loc as [sid|]; [|by apply never_raises_raise].
  apply never_raises_bind; [|intros _; apply never_raises_print].
  unfold save_gif. destruct images as [|im ims]; [by apply never_raises_raise|].
  unfold image_save.
  apply never_raises_bind; [apply never_raises_image_load_all|]. intros figs.
  apply never_raises_write_file.
Qed.

Lemma never_raises_export_block fuel inp traj :
  never_raises RuntimeError (export_block fuel inp traj).
Proof.
  unfold export_block.
  apply never_raises_bind.
  { intros w. unfold write_to_file. by destruct (decide _). }
  intros _.
  unfold save_allFrenet_visualization, animated_export.
  apply never_raises_bind; [apply never_raises_frame_loop|]. intros [images loc].
  apply never_raises_encode.
Qed.

(** The [try] block of a run with a trajectory, step by step. *)
Lemma try_block_with_trajectory fuel inp traj w :
  ego_vehicle_trajectory (planned inp) = Some traj →
  let w0 := mkWorld (planned_time_list (planned inp))
              (files w) (dirs w) (stdout w) in
  try_block fuel inp w =
    match validation inp traj with
    | inl e => (inl e, w0)
    | inr locals =>
        (match fst (export_block fuel inp traj w0) with
         | inl e => inl e
         | inr _ => inr locals
         end, snd (export_block fuel inp traj w0))
    end.
Proof.
  intros Htraj w0. unfold try_block. rewrite Htraj.
  unfold mbind, M_bind, set_time_list, lift. fold w0.
  destruct (validation inp traj) as [e|locals]; [done|].
  by destruct (export_block fuel inp traj w0) as [[e|[]] w1].
Qed.

(** C6.  The [try] block ends in [RuntimeError], the one exception the
    handler of line 320 catches, exactly when the planner returned no
    trajectory or a library call of the validation code raises one itself.
    When the validation calls return, the three flags are what the collision
    and feasibility calls answered, and they are only kept: the block then
    ends as the export code ends.  Replacing the collision test and the
    feasibility checker by any others (so that any of the three checks fails
    or passes) changes nothing of what [planning_example] returns or does.
    Without a trajectory [planning_example] itself returns normally: the
    handler has caught the error, and both messages are on standard
    output. *)
Theorem only_missing_trajectory_raises fuel (inp : ScriptInputs) (w : World) :
  (fst (try_block fuel inp w) = inl RuntimeError
     ↔ ego_vehicle_trajectory (planned inp) = None ∨
       ∃ traj, ego_vehicle_trajectory (planned inp) = Some traj ∧
               validation_error (scenario inp) (initial_state inp) traj
               = Some RuntimeError) ∧
  (∀ traj, ego_vehicle_trajectory (planned inp) = Some traj →
     validation_error (scenario inp) (initial_state inp) traj = None →
     let cc := create_collision_checker (scenario inp) in
     let ego_vehicle_co :=
       create_collision_object
         (make_dynamic_obstacle 100 (initial_state inp) traj) in
     let road_boundary := create_road_boundary_obstacle (scenario inp) in
     let checked := trajectory_feasibility traj (dt (scenario inp)) in
     let w0 := mkWorld (planned_time_list (planned inp))
                 (files w) (dirs w) (stdout w) in
     let run := export_block fuel inp traj w0 in
     try_block fuel inp w =
       (match fst run with
        | inl e => inl e
        | inr _ =>
            inr (mkValidationResult
                   (collide cc ego_vehicle_co)
                   (collide (add_collision_object road_boundary cc)
                      ego_vehicle_co)
                   (fst checked) (snd checked))
        end, snd run)) ∧
  (∀ collides' feasibility',
     @planning_example (with_validation H collides' feasibility') fuel
       (with_validation_inputs H collides' feasibility' inp) w
     = planning_example fuel inp w) ∧
  (ego_vehicle_trajectory (planned inp) = None →
     planning_example fuel inp w =
       (inr (),
        mkWorld (planned_time_list (planned inp)) (files w) (dirs w)
          (stdout w ++
             ["No ego vehicle trajectory found";
              "    DEU_Flensburg-1_1_T-1.xml not feasible, proceding to next file!"]))).
Proof.
  split; [|split; [|split]].
  - destruct (ego_vehicle_trajectory (planned inp)) as [traj|] eqn:Htraj.
    + rewrite (try_block_with_trajectory fuel inp traj w Htraj).
      unfold validation.
      destruct (validation_error _ _ _) as [e|] eqn:Herr; simpl.
      * split.
        -- intros [= ->]. right. by exists traj.
        -- intros [|(traj' & [= <-] & Herr')]; [done|]. congruence.
      * pose proof (never_raises_export_block fuel inp traj
          (mkWorld (planned_time_list (planned inp))
             (files w) (dirs w) (stdout w))) as Hexp.
        destruct (export_block _ _ _ _) as [[e|[]] w1]; simpl in *.
        -- split; [congruence|]. intros [|(traj' & [= <-] & ?)]; congruence.
        -- split; [done|]. intros [|(traj' & [= <-] & ?)]; congruence.
    + split; [by left|]. intros _. unfold try_block. rewrite Htraj. reflexivity.
  - intros traj Htraj Herr cc co rb checked w0 run.
    rewrite (try_block_with_trajectory fuel inp traj w Htraj).
    unfold validation. rewrite Herr. fold w0. fold run.
    unfold validate. fold cc co rb. fold checked.
    by destruct checked as [feas inputs].
  - intros collides' feasibility'.
    assert (Hloop : ∀ traj rest i images loc w0,
      @frame_loop (with_validation H collides' feasibility') fuel
        (with_validation_inputs H collides' feasibility' inp) traj i rest
        images loc w0
      = frame_loop fuel inp traj i rest images loc w0).
    { intros traj rest.
      induction rest as [|candidates rest IH]; intros i images loc w0; simpl;
        [reflexivity|].
      unfold mbind, M_bind.
      change (@frame_body (with_validation H collides' feasibility') fuel
                (with_validation_inputs H collides' feasibility' inp)
                traj i candidates)
        with (frame_body fuel inp traj i candidates).
      destruct (frame_body fuel inp traj i candidates w0) as [[e|im] w1];
        [reflexivity|].
      apply IH. }
    assert (Hexp : ∀ traj w0,
      @export_block (with_validation H collides' feasibility') fuel
        (with_validation_inputs H collides' feasibility' inp) traj w0
      = export_block fuel inp traj w0).
    { intros traj w0. unfold export_block, animated_export.
      unfold mbind, M_bind, save_allFrenet_visualization.
      change (@solution_filename (with_validation H collides' feasibility')
                (with_validation_inputs H collides' feasibility' inp))
        with (solution_filename inp).
      change (@scenario_id_of (with_validation H collides' feasibility')
                (@scenario (with_validation H collides' feasibility')
                   (with_validation_inputs H collides' feasibility' inp)))
        with (scenario_id_of (scenario inp)).
      change (@planning_problem_id (with_validation H collides' feasibility')
                (with_validation_inputs H collides' feasibility' inp))
        with (planning_problem_id inp).
      destruct (write_to_file _ _ _ w0) as [[e|[]] w1]; [reflexivity|].
      change (fplist (planned (with_validation_inputs H collides' feasibility' inp)))
        with (fplist (planned inp)).
      rewrite Hloop.
      by destruct (frame_loop _ _ _ _ _ _ _ _) as [[e|[images loc]] w1']. }
    unfold planning_example, try_except_RuntimeError, try_block.
    change (planned (with_validation_inputs H collides' feasibility' inp))
      with (planned inp).
    destruct (ego_vehicle_trajectory (planned inp)) as [traj|]; [|reflexivity].
    unfold mbind, M_bind, set_time_list, lift, validation.
    change (@validation_error (with_validation H collides' feasibility')
              (@scenario (with_validation H collides' feasibility')
                 (with_validation_inputs H collides' feasibility' inp))
              (@initial_state (with_validation H collides' feasibility')
                 (with_validation_inputs H collides' feasibility' inp)) traj)
      with (validation_error (scenario inp) (initial_state inp) traj).
    destruct (validation_error (scenario inp) (initial_state inp) traj)
      as [e|]; [reflexivity|].
    rewrite Hexp.
    by destruct (export_block _ _ _ _) as [[e|[]] w1].
  - intros Hnone. unfold planning_example, try_except_RuntimeError, try_block.
    rewrite Hnone. simpl. unfold print. simpl. by rewrite <- app_assoc.
Qed.

End RunProperties.

Lemma only_missing_trajectory_raises_witness :
  ego_vehicle_trajectory (planned (Demo.inputs None [0.5] [Demo.candidates0])) = None ∧
  fst (try_block 10 (Demo.inputs None [0.5] [Demo.candidates0]) Demo.empty_world)
    = inl RuntimeError ∧
  planning_example 10 (Demo.inputs None [0.5] [Demo.candidates0]) Demo.empty_world
    = (inr (),
       mkWorld [0.5] ∅ ∅
         ["No ego vehicle trajectory found";
          "    DEU_Flensburg-1_1_T-1.xml not feasible, proceding to next file!"]).
Proof.
  destruct (only_missing_trajectory_raises 10
              (Demo.inputs None [0.5] [Demo.candidates0]) Demo.empty_world)
    as ([_ Hraise] & _ & _ & Hcatch).
  split; [reflexivity|]. split.
  - apply Hraise. by left.
  - rewrite Hcatch by reflexivity. reflexivity.
Defined.

(** C6, as the spec words it, fails in its "only if" half: a run whose
    planner did produce a trajectory still ends in an error, which nothing
    catches, when there is no step to draw, when the directory of the
    solution file is missing, or when a validation call rejects the
    trajectory. *)
Lemma run_fails_with_trajectory_counterexample :
  ego_vehicle_trajectory (planned (Demo.inputs (Some Demo.ego) [0.5] []))
    = Some Demo.ego ∧
  fst (planning_example 10 (Demo.inputs (Some Demo.ego) [0.5] [])
         Demo.ready_world) = inl UnboundLocalError ∧
  fst (planning_example 10
         (Demo.inputs (Some Demo.ego) [0.5] [Demo.candidates0])
         Demo.empty_world) = inl NotADirectoryError ∧
  fst (planning_example 10
         (Demo.inputs (Some (mkTrajectory [Demo.st 0 0])) [0.5]
            [Demo.candidates0])
         Demo.ready_world) = inl (OtherException "Exception").
Proof.
  split; [reflexivity|]. repeat split; vm_compute; reflexivity.
Qed.

(** ** File names of the frames *)

Lemma string_length_app (s t : string) :
  String.length (s +:+ t) = (String.length s + String.length t)%nat.
Proof. induction s as [|a s IH]; simpl; [done|]. by rewrite IH. Qed.

Lemma string_app_inj_r (t s1 s2 : string) : s1 +:+ t = s2 +:+ t → s1 = s2.
Proof.
  revert s2. induction s1 as [|a s1 IH]; intros [|b s2] Heq.
  - done.
  - apply (f_equal String.length) in Heq.
    rewrite !string_length_app in Heq. simpl in Heq. lia.
  - apply (f_equal String.length) in Heq.
    rewrite !string_length_app in Heq. simpl in Heq. lia.
  - change (String a (s1 +:+ t) = String b (s2 +:+ t)) in Heq.
    injection Heq as -> Heq. f_equal. by apply IH.
Qed.

Lemma starts_with_slash_app (s t : string) :
  starts_with_slash s = false → starts_with_slash t = false →
  starts_with_slash (s +:+ t) = false.
Proof. by destruct s. Qed.

Lemma pretty_N_go_no_slash (x : N) (s : string) :
  starts_with_slash s = false → starts_with_slash (pretty_N_go x s) = false.
Proof.
  revert s. induction (N.lt_wf_0 x) as [x _ IH]; intros s Hs.
  assert (x = 0 ∨ 0 < x)%N as [->|Hpos] by lia.
  - by rewrite pretty_N_go_0.
  - rewrite pretty_N_go_step by done. apply IH.
    { by apply N.div_lt. }
    unfold pretty_N_char. by repeat case_match.
Qed.

Lemma pretty_nat_no_slash (i : nat) : starts_with_slash (pretty i) = false.
Proof.
  unfold pretty, pretty_nat, pretty, pretty_N.
  destruct (decide _); [done|]. by apply pretty_N_go_no_slash.
Qed.

Lemma path_join_inj (a b1 b2 : string) :
  starts_with_slash b1 = false → starts_with_slash b2 = false →
  path_join a b1 = path_join a b2 → b1 = b2.
Proof.
  unfold path_join. intros -> ->.
  destruct (decide (a = "")); [done|].
  destruct (ends_with_slash a); intros Heq.
  - by apply (inj (String.app a)) in Heq.
  - apply (inj (String.app a)) in Heq. by apply (inj (String.app "/")) in Heq.
Qed.

Section PathProperties.
Context `{Collaborators}.

Lemma file_path_inj (inp : ScriptInputs) (i j : nat) :
  file_path inp i = file_path inp j → i = j.
Proof.
  unfold file_path. intros Heq.
  apply path_join_inj in Heq;
    [|by apply starts_with_slash_app; [apply pretty_nat_no_slash|]..].
  apply string_app_inj_r in Heq. by apply (inj pretty) in Heq.
Qed.

End PathProperties.

(** ** The frame loop and the encoder *)

Section EncoderProperties.
Context `{Collaborators}.

Lemma ensure_dir_spec p w :
  ∃ w', ensure_dir p w = (inr (), w') ∧
        files w' = files w ∧ time_list w' = time_list w.
Proof.
  unfold ensure_dir. destruct (decide _); eexists; split; try reflexivity; done.
Qed.

Lemma save_frame_spec inp i fig w :
  ∃ w', save_frame inp i fig w = (inr (file_path inp i), w') ∧
        files w' = <[file_path inp i := Jpg fig]> (files w) ∧
        time_list w' = time_list w.
Proof.
  unfold save_frame, mbind, M_bind.
  destruct (ensure_dir_spec (result_path inp) w) as (w1 & -> & Hfiles & Htimes).
  unfold write_file, print, image_open. simpl.
  rewrite lookup_insert_eq. eexists. split; [reflexivity|]. simpl.
  by rewrite Hfiles, Htimes.
Qed.

Lemma frame_body_inv fuel inp traj i candidates w im w' :
  frame_body fuel inp traj i candidates w = (inr im, w') →
  im = file_path inp i ∧
  ∃ fig w1, compose_frame fuel inp traj i candidates w = (inr fig, w1) ∧
            files w' = <[file_path inp i := Jpg fig]> (files w).
Proof.
  unfold frame_body, mbind, M_bind.
  destruct (compose_frame fuel inp traj i candidates w) as [[e|fig] w1] eqn:Hfig;
    [done|].
  destruct (save_frame_spec inp i fig w1) as (w2 & -> & Hfiles & _).
  intros [= <- <-]. split; [done|]. exists fig, w1. split; [done|].
  apply compose_frame_inv in Hfig as (_ & _ & _ & _ & _ & _ & _ & _ & _ & -> & _).
  exact Hfiles.
Qed.

(** What the loop leaves behind when it has run through [rest] from index
    [i0]: one image per step, each a handle on the file of its step, which
    holds the figure composed at that step; files of other names are as
    before. *)
Lemma frame_loop_inv fuel inp traj rest :
  ∀ i0 images0 loc0 w images loc w1,
    frame_loop fuel inp traj i0 rest images0 loc0 w = (inr (images, loc), w1) →
    images = images0 ++ (file_path inp <$> seq i0 (length rest)) ∧
    loc = (if rest is [] then loc0 else Some scenario_id) ∧
    (∀ p, (∀ k, k < length rest → p ≠ file_path inp (i0 + k))%nat →
          files w1 !! p = files w !! p) ∧
    ∀ k candidates, rest !! k = Some candidates →
      ∃ fig wk wk',
        compose_frame fuel inp traj (i0 + k) candidates wk = (inr fig, wk') ∧
        files w1 !! file_path inp (i0 + k)%nat = Some (Jpg fig).
Proof.
  induction rest as [|candidates rest IH];
    intros i0 images0 loc0 w images loc w1; simpl.
  - intros [= <- <- <-]. rewrite app_nil_r. repeat split; done.
  - unfold mbind, M_bind.
    destruct (frame_body fuel inp traj i0 candidates w) as [[e|im] w0] eqn:Hbody;
      [done|].
    apply frame_body_inv in Hbody as (-> & fig & wc & Hfig & Hfiles).
    intros Hrest. apply IH in Hrest as (-> & Hloc & Hother & Hframes).
    split. { by rewrite <- app_assoc. }
    split. { by destruct rest. }
    split.
    { intros p Hp. rewrite Hother.
      - rewrite Hfiles. apply lookup_insert_ne.
        specialize (Hp 0%nat ltac:(lia)). rewrite Nat.add_0_r in Hp. done.
      - intros k Hk. specialize (Hp (S k) ltac:(lia)).
        by replace (i0 + S k)%nat with (S i0 + k)%nat in Hp by lia. }
    intros [|k] cands Hk; simpl in Hk.
    + injection Hk as <-. rewrite Nat.add_0_r.
      exists fig, w, wc. split; [done|].
      rewrite Hother.
      * rewrite Hfiles. apply lookup_insert_eq.
      * intros k Hk Heq. apply file_path_inj in Heq. lia.
    + destruct (Hframes k cands Hk) as (fig' & wk & wk' & Hfig' & Hfile').
      replace (i0 + S k)%nat with (S i0 + k)%nat by lia. eauto.
Qed.

Lemma image_load_all_spec (ims : list Image) (figs : list Figure) w :
  Forall2 (λ im fig, files w !! im = Some (Jpg fig)) ims figs →
  image_load_all ims w = (inr figs, w).
Proof.
  induction 1 as [|im fig ims figs Him _ IH]; simpl; [done|].
  unfold mbind, M_bind, image_load. rewrite Him, IH. done.
Qed.

(** C7.  The frame loop hands the encoder one image per step, and leaves
    [scenario_id] unbound exactly when it leaves [images] empty: when there
    is no step.  In such a run the animated export fails at line 316, where
    the file name is formed from the unbound [scenario_id], with
    [UnboundLocalError]: the gif directory has been created if it was
    missing, nothing has been written, and [images[0].save] has not been
    called.  The error is not a [RuntimeError], so it leaves
    [planning_example] whenever the run gets as far as the export. *)
Theorem empty_frame_sequence_fails fuel (inp : ScriptInputs) traj :
  (∀ w images loc w1,
     frame_loop fuel inp traj 0 (fplist (planned inp)) [] None w
       = (inr (images, loc), w1) →
     length images = length (fplist (planned inp)) ∧
     (loc = None ↔ images = [])) ∧
  (∀ images w,
     encode inp images None w
     = (inl UnboundLocalError, snd (ensure_dir (gif_dirpath inp) w))) ∧
  (fplist (planned inp) = [] →
   (∀ w, ∃ w',
      animated_export fuel inp traj w = (inl UnboundLocalError, w') ∧
      files w' = files w ∧ gif_dirpath inp ∈ dirs w' ∧
      ∀ line, line ∈ stdout w' → line ∉ stdout w →
              line = "Target directory: " +:+ gif_dirpath inp +:+ " Created") ∧
   (ego_vehicle_trajectory (planned inp) = Some traj →
    validation_error (scenario inp) (initial_state inp) traj = None →
    ∀ w, "./data/solution" ∈ dirs w →
         fst (planning_example fuel inp w) = inl UnboundLocalError)).
Proof.
  assert (Henc : ∀ images w,
    encode inp images None w
    = (inl UnboundLocalError, snd (ensure_dir (gif_dirpath inp) w))).
  { intros images w. unfold encode, mbind, M_bind.
    destruct (ensure_dir_spec (gif_dirpath inp) w) as (w' & Hdir & _).
    by rewrite Hdir. }
  split; [|split; [exact Henc|]].
  { intros w images loc w1 Hloop.
    apply frame_loop_inv in Hloop as (-> & -> & _).
    rewrite app_nil_l, length_fmap, length_seq. split; [done|].
    by destruct (fplist (planned inp)). }
  intros Hempty.
  assert (Hexp : ∀ w, ∃ w',
    animated_export fuel inp traj w = (inl UnboundLocalError, w') ∧
    files w' = files w ∧ gif_dirpath inp ∈ dirs w' ∧
    ∀ line, line ∈ stdout w' → line ∉ stdout w →
            line = "Target directory: " +:+ gif_dirpath inp +:+ " Created").
  { intros w. unfold animated_export. rewrite Hempty. simpl.
    unfold mbind, M_bind. simpl. rewrite Henc.
    eexists. split; [reflexivity|].
    unfold ensure_dir. destruct (decide (gif_dirpath inp ∈ dirs w)) as [Hin|Hout].
    - simpl. repeat split; try done.
    - simpl. split; [done|]. split; [set_solver|].
      intros line Hline Hnew. apply elem_of_app in Hline as [?|Hline]; [done|].
      by apply list_elem_of_singleton in Hline. }
  split; [exact Hexp|].
  intros Htraj Hvalid w Hdir.
  unfold planning_example, try_except_RuntimeError, try_block, export_block.
  rewrite Htraj. unfold validation. rewrite Hvalid.
  unfold save_allFrenet_visualization.
  unfold mbind at 1 2 3 4 5, M_bind, set_time_list, lift, write_to_file,
    write_file.
  cbn [dirs]. rewrite decide_True by done. cbv beta iota.
  match goal with
  | |- context [animated_export fuel inp traj ?w0] =>
      destruct (Hexp w0) as (w' & -> & _)
  end.
  reflexivity.
Qed.

End EncoderProperties.

Lemma empty_frame_sequence_fails_witness :
  fplist (planned (Demo.inputs (Some Demo.ego) [0.5] [])) = [] ∧
  fst (planning_example 10 (Demo.inputs (Some Demo.ego) [0.5] [])
         Demo.ready_world) = inl UnboundLocalError.
Proof.
  split; [reflexivity|].
  apply (empty_frame_sequence_fails 10
           (Demo.inputs (Some Demo.ego) [0.5] []) Demo.ego);
    [reflexivity | reflexivity | reflexivity | vm_compute; set_solver].
Defined.

(** C7, as the spec words it, fails: with no frame composed the export does
    not end in an error of the encoder.  The encoder, called on the empty
    image list, would raise [IndexError]; the run ends before that call in
    [UnboundLocalError], having already created the gif directory and
    announced it. *)
Lemma no_frames_no_encoder_error_counterexample :
  fplist (planned (Demo.inputs (Some Demo.ego) [0.5] [])) = [] ∧
  animated_export 10 (Demo.inputs (Some Demo.ego) [0.5] []) Demo.ego
    Demo.ready_world
  = (inl UnboundLocalError,
     mkWorld [] ∅
       ({["/home/user/data/results/gif/FISS+"]} ∪ {["./data/solution"]})
       ["Target directory: /home/user/data/results/gif/FISS+ Created"]) ∧
  fst (save_gif [] (gif_filepath (Demo.inputs (Some Demo.ego) [0.5] [])
                      scenario_id) Demo.ready_world) = inl IndexError.
Proof.
  split; [reflexivity|]. split; [|reflexivity].
  vm_compute. reflexivity.
Qed.

(** ** The viewport of the frames *)

Section ViewportProperties.
Context `{Collaborators}.


End ViewportProperties.


Section ViewportInBinary64.
Import PrimFloat.


End ViewportInBinary64.

(** ** The frames of the GIF *)

Section GifProperties.
Context `{Collaborators}.

Lemma compose_frame_index fuel inp traj i candidates w fig w' :
  compose_frame fuel inp traj i candidates w = (inr fig, w') →
  frame_index fig = Some i.
Proof.
  intros Hrun.
  by apply compose_frame_inv in Hrun
    as (segs & xl & yl & extra & time & _ & _ & _ & _ & _ & ->).
Qed.

Lemma stored_figures (ims : list Image) w :
  (∀ im, im ∈ ims → ∃ fig, files w !! im = Some (Jpg fig)) →
  ∃ figs, Forall2 (λ im fig, files w !! im = Some (Jpg fig)) ims figs.
Proof.
  induction ims as [|im ims IH]; intros Hall.
  - exists []. constructor.
  - destruct (Hall im) as [fig Hfig]; [left|].
    destruct IH as [figs Hfigs]. { intros im' Him'. apply Hall. by right. }
    exists (fig :: figs). by constructor.
Qed.

(** C8.  When the frame loop has composed and saved the [n > 0] frames of a
    run, the encoder succeeds and the GIF it writes holds exactly [n]
    frames; frame [i] of the GIF is the figure composed at step [i] (the one
    stored as [i.jpg], showing the scene at time [i]), so the frames follow
    each other in increasing step order; the per-frame duration is 100 ms and
    the loop count is 0, which is PIL's "loop forever". *)
Theorem gif_holds_frames_in_order fuel (inp : ScriptInputs) traj w images loc w1 :
  fplist (planned inp) ≠ [] →
  frame_loop fuel inp traj 0 (fplist (planned inp)) [] None w
    = (inr (images, loc), w1) →
  ∃ figs w2,
    encode inp images loc w1 = (inr (), w2) ∧
    files w2 !! gif_filepath inp scenario_id
      = Some (GifFile (mkGif figs 100 0)) ∧
    length figs = length (fplist (planned inp)) ∧
    frame_index <$> figs = Some <$> seq 0 (length (fplist (planned inp))) ∧
    ∀ i candidates, fplist (planned inp) !! i = Some candidates →
      ∃ fig wi wi',
        figs !! i = Some fig ∧
        compose_frame fuel inp traj i candidates wi = (inr fig, wi') ∧
        files w1 !! file_path inp i = Some (Jpg fig).
Proof.
  intros Hne Hloop.
  apply frame_loop_inv in Hloop as (Himages & Hloc & _ & Hframes).
  simpl in Himages.
  assert (Hloc' : loc = Some scenario_id) by (by destruct (fplist (planned inp))).
  clear Hloc. subst loc.
  set (n := length (fplist (planned inp))) in *.
  assert (Hstored : ∀ im, im ∈ images → ∃ fig, files w1 !! im = Some (Jpg fig)).
  { intros im Him. subst images.
    apply list_elem_of_fmap in Him as (i & -> & Hi).
    apply elem_of_seq in Hi.
    destruct (lookup_lt_is_Some_2 (fplist (planned inp)) i) as [cands Hc];
      [fold n; lia|].
    destruct (Hframes i cands Hc) as (fig & _ & _ & _ & Hfile). eauto. }
  destruct (stored_figures images w1 Hstored) as [figs Hfigs].
  assert (Hlen : length figs = n).
  { rewrite <- (Forall2_length _ _ _ Hfigs), Himages.
    by rewrite length_fmap, length_seq. }
  assert (Hat : ∀ i candidates, fplist (planned inp) !! i = Some candidates →
    ∃ fig wi wi',
      figs !! i = Some fig ∧
      compose_frame fuel inp traj i candidates wi = (inr fig, wi') ∧
      files w1 !! file_path inp i = Some (Jpg fig)).
  { intros i cands Hc.
    destruct (Hframes i cands Hc) as (fig & wi & wi' & Hfig & Hfile).
    simpl in Hfig, Hfile. exists fig, wi, wi'. split; [|done].
    assert (Hi : (i < n)%nat) by (by apply lookup_lt_Some in Hc).
    assert (Him : images !! i = Some (file_path inp i)).
    { rewrite Himages, list_lookup_fmap, lookup_seq_lt by done. done. }
    destruct (Forall2_lookup_l _ _ _ _ _ Hfigs Him) as (fig' & Hfig' & Hfile').
    assert (Heq : Some (Jpg fig) = Some (Jpg fig'))
      by exact (eq_trans (eq_sym Hfile) Hfile').
    by injection Heq as <-. }
  destruct (ensure_dir_spec (gif_dirpath inp) w1) as (w1' & Hdir & Hfiles & _).
  assert (Hload : image_load_all images w1' = (inr figs, w1')).
  { apply image_load_all_spec. by rewrite Hfiles. }
  eexists figs, _. split.
  { unfold encode, mbind, M_bind. rewrite Hdir.
    unfold save_gif, image_save.
    destruct images as [|im ims].
    { destruct (fplist (planned inp)); [done|]. simpl in Himages. done. }
    unfold mbind, M_bind. rewrite Hload. reflexivity. }
  simpl. split; [apply lookup_insert_eq|]. split; [exact Hlen|]. split; [|exact Hat].
  apply list_eq. intros i. rewrite !list_lookup_fmap.
  destruct (decide (i < n)%nat) as [Hi|Hi].
  - destruct (lookup_lt_is_Some_2 (fplist (planned inp)) i) as [cands Hc];
      [done|].
    destruct (Hat i cands Hc) as (fig & wi & wi' & -> & Hfig & _).
    rewrite lookup_seq_lt by done. simpl. f_equal.
    by apply compose_frame_index in Hfig.
  - rewrite lookup_seq_ge by lia.
    rewrite (lookup_ge_None_2 figs i) by lia. done.
Qed.

End GifProperties.

Lemma gif_holds_frames_in_order_witness :
  ∃ figs w2,
    fst (planning_example 10 (Demo.inputs (Some Demo.ego) [0.5]
           [Demo.candidates0; Demo.candidates1]) Demo.ready_world) = inr () ∧
    files w2 !! gif_filepath (Demo.inputs (Some Demo.ego) [0.5]
                   [Demo.candidates0; Demo.candidates1]) scenario_id
      = Some (GifFile (mkGif figs 100 0)) ∧
    frame_index <$> figs = [Some 0%nat; Some 1%nat].
Proof.
  pose (inp := Demo.inputs (Some Demo.ego) [0.5]
                 [Demo.candidates0; Demo.candidates1]).
  pose (w := mkWorld [0.5]
               {[solution_path inp := SolutionFile
                   (mkSolution "DEU_Flensburg-1" 7 Demo.ego)]}
               {["./data/solution"]} []).
  destruct (frame_loop 10 inp Demo.ego 0 (fplist (planned inp)) [] None w)
    as [[e|[images loc]] w1] eqn:Hloop; [vm_compute in Hloop; discriminate|].
  destruct (gif_holds_frames_in_order 10 inp Demo.ego w images loc w1)
    as (figs & w2 & _ & Hgif & _ & Hidx & _).
  - simpl. discriminate.
  - exact Hloop.
  - exists figs, w2. split; [vm_compute; reflexivity|].
    split; [exact Hgif | exact Hidx].
Defined.

(** ** What a frame reads and writes *)

Section PurityProperties.
Context `{Collaborators}.

Lemma compose_frame_world fuel inp traj i candidates w :
  let w' := snd (compose_frame fuel inp traj i candidates w) in
  files w' = files w ∧ dirs w' = dirs w ∧ stdout w' = stdout w ∧
  (time_list w' = time_list w ∨ time_list w' = time_list w ++ [0]).
Proof.
  frame_cases; try (repeat split; by left).
  destruct ((time_list w ++ [0]) !! i); repeat split; by right.
Qed.

Lemma compose_frame_time_prefix fuel inp traj i candidates w1 w2 extra :
  time_list w2 = time_list w1 ++ extra →
  extra = [] ∨ (extra = [0] ∧ (i ≤ length (time_list w1))%nat) →
  fst (compose_frame fuel inp traj i candidates w2)
  = fst (compose_frame fuel inp traj i candidates w1).
Proof.
  intros Htl Hi. frame_cases. rewrite Htl.
  assert (Hlook : ((time_list w1 ++ extra) ++ [0]) !! i
                  = (time_list w1 ++ [0]) !! i).
  { destruct Hi as [->|[-> Hi]]; [by rewrite app_nil_r|].
    rewrite <- app_assoc.
    destruct (decide (i < length (time_list w1))%nat).
    - by rewrite !lookup_app_l.
    - assert (i = length (time_list w1)) as -> by lia.
      simpl. by rewrite !list_lookup_middle by done. }
  rewrite Hlook. by destruct ((time_list w1 ++ [0]) !! i).
Qed.

(** C2, as the code has it.  The figure of step [t] is a function of the
    step, the fixed inputs and the contents of the time list when the step
    starts: two worlds with equal time lists give the same outcome.
    Composing it changes nothing of the world except the time list, to which
    it appends one entry 0 (the earlier entries stay), and every successful
    composition does append.  The next step reads that list: its outcome is
    the same with and without the append of step [t] when [t + 1] is at most
    the length the list had before step [t]. *)
Theorem frame_depends_on_time_list fuel inp traj t candidates :
  (∀ w1 w2, time_list w1 = time_list w2 →
     fst (compose_frame fuel inp traj t candidates w1)
     = fst (compose_frame fuel inp traj t candidates w2)) ∧
  (∀ w, let w' := snd (compose_frame fuel inp traj t candidates w) in
     files w' = files w ∧ dirs w' = dirs w ∧ stdout w' = stdout w ∧
     (time_list w' = time_list w ∨ time_list w' = time_list w ++ [0])) ∧
  (∀ w fig w', compose_frame fuel inp traj t candidates w = (inr fig, w') →
     time_list w' = time_list w ++ [0]) ∧
  (∀ w candidates', (S t ≤ length (time_list w))%nat →
     fst (compose_frame fuel inp traj (S t) candidates'
            (snd (compose_frame fuel inp traj t candidates w)))
     = fst (compose_frame fuel inp traj (S t) candidates' w)).
Proof.
  split.
  { intros w1 w2 Htl.
    apply (compose_frame_time_prefix _ _ _ _ _ w2 w1 []); [|by left].
    by rewrite app_nil_r. }
  split; [apply compose_frame_world|]. split.
  { intros w fig w' Hrun.
    by apply compose_frame_inv in Hrun
      as (_ & _ & _ & _ & _ & _ & _ & _ & _ & -> & _). }
  intros w candidates' Ht.
  destruct (compose_frame_world fuel inp traj t candidates w)
    as (_ & _ & _ & [Htl|Htl]).
  - apply (compose_frame_time_prefix _ _ _ _ _ w _ []); [|by left].
    by rewrite app_nil_r.
  - apply (compose_frame_time_prefix _ _ _ _ _ w _ [0]); [done|].
    right. split; [done|lia].
Qed.

End PurityProperties.

Lemma frame_depends_on_time_list_witness :
  (1 ≤ length (time_list Demo.timed_world))%nat ∧
  fst (compose_frame 10 (Demo.inputs (Some Demo.ego) [0.5; 0.25]
         [Demo.candidates0; Demo.candidates1]) Demo.ego 1 Demo.candidates1
         (snd (compose_frame 10 (Demo.inputs (Some Demo.ego) [0.5; 0.25]
                 [Demo.candidates0; Demo.candidates1]) Demo.ego 0
                 Demo.candidates0 Demo.timed_world)))
  = fst (compose_frame 10 (Demo.inputs (Some Demo.ego) [0.5; 0.25]
           [Demo.candidates0; Demo.candidates1]) Demo.ego 1 Demo.candidates1
           Demo.timed_world).
Proof.
  assert (Hlen : (1 ≤ length (time_list Demo.timed_world))%nat) by (simpl; lia).
  split; [exact Hlen|].
  apply (frame_depends_on_time_list 10
           (Demo.inputs (Some Demo.ego) [0.5; 0.25]
              [Demo.candidates0; Demo.candidates1])
           Demo.ego 0 Demo.candidates0).
  exact Hlen.
Defined.

(** C2 as the specification states it fails.  With an empty time list,
    composing frame 0 changes the time list, and frame 1 reads what frame 0
    wrote: composed after frame 0 it yields a figure, composed from the
    same initial state without frame 0 it raises [IndexError]. *)
Lemma frame_mutates_time_list_counterexample :
  time_list (snd (compose_frame 10 (Demo.inputs (Some Demo.ego) []
                    [Demo.candidates0; Demo.candidates1]) Demo.ego 0
                    Demo.candidates0 Demo.empty_world))
    ≠ time_list Demo.empty_world ∧
  fst (compose_frame 10 (Demo.inputs (Some Demo.ego) []
         [Demo.candidates0; Demo.candidates1]) Demo.ego 1 Demo.candidates1
         (snd (compose_frame 10 (Demo.inputs (Some Demo.ego) []
                 [Demo.candidates0; Demo.candidates1]) Demo.ego 0
                 Demo.candidates0 Demo.empty_world)))
    ≠ fst (compose_frame 10 (Demo.inputs (Some Demo.ego) []
             [Demo.candidates0; Demo.candidates1]) Demo.ego 1 Demo.candidates1
             Demo.empty_world).
Proof. split; vm_compute; discriminate. Qed.

(** ** When the frame loop runs to its end *)

Section TotalityProperties.
Context `{Collaborators}.

Lemma draw_obstacles_total fuel i obss ax :
  Forall (λ obs, is_Some (probe fuel obs)) obss →
  ∃ ax', draw_obstacles fuel i obss ax = inr ax'.
Proof.
  intros Hall. revert ax.
  induction Hall as [|obs obss [p Hp] _ IH]; intros ax; simpl; [eauto|].
  unfold mbind, result_bind, draw_obstacle. rewrite Hp. apply IH.
Qed.

Lemma candidate_segments_total (candidates : list FrenetPath.t) :
  Forall (λ fp, length (FrenetPath.x fp) = length (FrenetPath.y fp)) candidates →
  ∃ segs,
    build_segments (zip (candidate_xs candidates) (candidate_ys candidates))
      = inr segs.
Proof.
  intros Hall. eexists. apply build_segments_total.
  unfold candidate_xs, candidate_ys.
  induction Hall as [|fp candidates Hfp _ IH]; simpl; constructor; [|exact IH].
  destruct (FrenetPath.x fp), (FrenetPath.y fp); simpl in *; lia.
Qed.

(** A frame is composed whenever the candidates have as many x as y samples,
    the trajectory has a state, every obstacle's probing finishes within the
    fuel, and the step is at most the current length of the time list. *)
Lemma compose_frame_total fuel inp traj i candidates w :
  Forall (λ fp, length (FrenetPath.x fp) = length (FrenetPath.y fp)) candidates →
  state_list traj ≠ [] →
  Forall (λ obs, is_Some (probe fuel obs)) (dynamic_obstacles (scenario inp)) →
  (i ≤ length (time_list w))%nat →
  ∃ fig, compose_frame fuel inp traj i candidates w
         = (inr fig, mkWorld (time_list w ++ [0]) (files w) (dirs w) (stdout w)).
Proof.
  intros Hcands Hne Hobs Hi.
  destruct (candidate_segments_total candidates Hcands) as [segs Hsegs].
  assert (Hxs : ego_x (state_list traj) ≠ []).
  { unfold ego_x. by destruct (state_list traj). }
  assert (Hys : ego_y (state_list traj) ≠ []).
  { unfold ego_y. by destruct (state_list traj). }
  destruct (square_limits_spec _ _ Hxs Hys)
    as (? & ? & ? & ? & x_lo & x_hi & y_lo & y_hi & ? & _ & _ & _ & _ & Hlim & _).
  unfold compose_frame, multiline.
  fold (candidate_xs candidates). fold (candidate_ys candidates).
  unfold mbind at 1, M_bind, lift. rewrite Hsegs. simpl.
  unfold mbind at 1, M_bind. rewrite Hlim. simpl.
  unfold mbind at 1, M_bind.
  match goal with
  | |- context [draw_obstacles fuel i ?obss ?ax] =>
      destruct (draw_obstacles_total fuel i obss ax Hobs) as [ax' ->]
  end.
  unfold mbind, M_bind, time_list_append, time_list_get, mret, M_ret. simpl.
  destruct (lookup_lt_is_Some_2 (time_list w ++ [0]) i) as [time ->].
  { rewrite length_app. simpl. lia. }
  eauto.
Qed.

(** With such inputs the loop composes and saves every frame: the step
    index never runs ahead of the time list, because every step appends to
    it before reading it. *)
Lemma frame_loop_total fuel inp traj rest :
  Forall (Forall (λ fp, length (FrenetPath.x fp) = length (FrenetPath.y fp)))
         rest →
  state_list traj ≠ [] →
  Forall (λ obs, is_Some (probe fuel obs)) (dynamic_obstacles (scenario inp)) →
  ∀ i images loc w, (i ≤ length (time_list w))%nat →
    ∃ images' loc' w',
      frame_loop fuel inp traj i rest images loc w = (inr (images', loc'), w').
Proof.
  intros Hrest Hne Hobs.
  induction Hrest as [|candidates rest Hcands _ IH]; intros i images loc w Hi;
    simpl; [eauto|].
  unfold mbind, M_bind, frame_body. unfold mbind, M_bind.
  destruct (compose_frame_total fuel inp traj i candidates w Hcands Hne Hobs Hi)
    as [fig ->].
  destruct (save_frame_spec inp i fig
              (mkWorld (time_list w ++ [0]) (files w) (dirs w) (stdout w)))
    as (w1 & -> & _ & Htl).
  apply IH. rewrite Htl. simpl. rewrite length_app. simpl. lia.
Qed.

End TotalityProperties.

(** * Further properties of the script *)

(** ** [multiline]: when it fails and what it builds *)

Lemma build_segments_fails (xys : list (list Q * list Q)) e :
  build_segments xys = inl e →
  ∃ j x y, xys !! j = Some (x, y) ∧ length x ≠ length y.
Proof.
  revert e. induction xys as [|[x y] xys IH]; intros e; simpl; [done|].
  unfold column_stack, mbind, result_bind.
  destruct (decide (length x = length y)) as [Hlen|Hlen].
  - destruct (build_segments xys) as [e'|segs]; [|done].
    intros _. destruct (IH e' eq_refl) as (j & x' & y' & Hj & Hne).
    by exists (S j), x', y'.
  - intros _. by exists 0%nat, x, y.
Qed.

(** X1.  [multiline] pairs the x and y sequences with [zip], so it builds as
    many polylines as the shorter of [xs] and [ys] has entries, polyline [j]
    being the points of [xs[j]] and [ys[j]]; it fails, with [ValueError],
    exactly when some paired sequences differ in length.  The cost list is
    attached unchanged and its length is never compared with the number of
    polylines. *)
Theorem multiline_pairs_by_zip (xs ys : list (list Q)) (c : list Q)
    (ax : Axes) (kwargs : LineKwargs) :
  (∀ e, multiline xs ys c ax kwargs = inl e ↔
     e = ValueError ∧
     ∃ j x y, xs !! j = Some x ∧ ys !! j = Some y ∧ length x ≠ length y) ∧
  (∀ lc ax', multiline xs ys c ax kwargs = inr (lc, ax') →
     length (segments lc) = Nat.min (length xs) (length ys) ∧
     array lc = c ∧
     (∀ j x y, xs !! j = Some x → ys !! j = Some y →
        length x = length y ∧ segments lc !! j = Some (zip x y)) ∧
     artists ax' = artists ax ++ [Collection lc]).
Proof.
  split.
  - intros e. split.
    + intros Herr. split; [by eapply multiline_error|].
      unfold multiline, mbind, result_bind in Herr.
      destruct (build_segments (zip xs ys)) as [e'|segs] eqn:Hsegs; [|done].
      apply build_segments_fails in Hsegs as (j & x & y & Hj & Hne).
      apply lookup_zip_with_Some in Hj as (x' & y' & [= -> ->] & Hx & Hy).
      by exists j, x', y'.
    + intros (-> & j & x & y & Hx & Hy & Hne).
      unfold multiline, mbind, result_bind.
      destruct (build_segments (zip xs ys)) as [e'|segs] eqn:Hsegs.
      { by rewrite (build_segments_error _ _ Hsegs). }
      apply build_segments_inv in Hsegs as [_ Hall].
      assert (Hj : zip xs ys !! j = Some (x, y)).
      { apply lookup_zip_with_Some. by exists x, y. }
      by pose proof (proj1 (Forall_lookup _ _) Hall _ _ Hj).
  - intros lc ax'. unfold multiline, mbind, result_bind.
    destruct (build_segments (zip xs ys)) as [e'|segs] eqn:Hsegs; [done|].
    intros [= <- <-]. simpl.
    apply build_segments_inv in Hsegs as [-> Hall].
    split. { by rewrite length_fmap, length_zip. }
    split; [done|]. split; [|done].
    intros j x y Hx Hy.
    assert (Hj : zip xs ys !! j = Some (x, y)).
    { apply lookup_zip_with_Some. by exists x, y. }
    split.
    + by pose proof (proj1 (Forall_lookup _ _) Hall _ _ Hj).
    + by rewrite list_lookup_fmap, Hj.
Qed.

Lemma multiline_pairs_by_zip_witness :
  ∃ lc ax',
    multiline [[0; 1]; [2]] [[5; 6]] [7; 8; 9] new_axes
      (mkLineKwargs "RdYlGn_r" 2 20) = inr (lc, ax') ∧
    length (segments lc) = 1%nat ∧ array lc = [7; 8; 9].
Proof.
  destruct (multiline [[0; 1]; [2]] [[5; 6]] [7; 8; 9] new_axes
              (mkLineKwargs "RdYlGn_r" 2 20)) as [e|[lc ax']] eqn:Hrun;
    [vm_compute in Hrun; discriminate|].
  destruct (multiline_pairs_by_zip [[0; 1]; [2]] [[5; 6]] [7; 8; 9] new_axes
              (mkLineKwargs "RdYlGn_r" 2 20)) as [_ Hok].
  destruct (Hok lc ax' Hrun) as (Hlen & Harr & _).
  exists lc, ax'. split; [reflexivity|]. split; [exact Hlen | exact Harr].
Defined.

(** ** The viewport computation on its own *)

Section ViewportFloatProperties.
Import PrimFloat.




End ViewportFloatProperties.

(** ** The colorbar of a frame *)

Lemma nonsingular_widens (expander c : Q) :
  0 < expander →
  fst (nonsingular expander (c, c)) < snd (nonsingular expander (c, c)).
Proof.
  intros Hpos.
  assert (Hthr : 0 < 1000000 / tiny * float_tiny) by (vm_compute; reflexivity).
  unfold nonsingular. cbn [fst snd].
  destruct (Qlt_le_dec c c) as [Hlt|_]; [lra|].
  assert (Hmax : Py.max2 (Qabs c) (Qabs c) = Qabs c).
  { unfold Py.max2. by destruct (Qlt_le_dec _ _). }
  rewrite Hmax.
  destruct (Qlt_le_dec (Qabs c) _) as [Hsmall|Hbig]; [simpl; lra|].
  destruct (Qle_bool (c - c) (Qabs c * tiny)) eqn:Hle.
  - destruct (Qeq_bool c 0 && Qeq_bool c 0); simpl; [lra|].
    assert (0 < expander * Qabs c); [|lra].
    apply Qmult_lt_0_compat; lra.
  - exfalso. apply not_true_iff_false in Hle. apply Hle.
    apply Qle_bool_iff.
    assert (0 <= Qabs c * tiny); [|lra].
    apply Qmult_le_0_compat; [apply Qabs_nonneg|done].
Qed.

Section ColorbarProperties.
Context `{Collaborators}.

(** X3.  A composed frame has exactly one collection and one colorbar, the
    colorbar being the one made from that collection, whose array is the
    costs of the candidates of this step; its title counts those candidates.
    When the smallest and largest cost are limits that matplotlib keeps, the
    colorbar covers exactly the interval between them, both being costs of
    candidates of the step.  With a single candidate the colorbar does not
    cover the point range of its cost but a proper interval.  A step without
    candidates is still composed (given a trajectory with a state, obstacles
    whose probing finishes and a step within the time list): its collection
    has no polyline and its colorbar has the default range from 0 to 1. *)
Theorem frame_colorbar_is_step_local fuel inp traj t candidates w :
  (∀ fig w', compose_frame fuel inp traj t candidates w = (inr fig, w') →
     (∃ lc, collections fig = [lc] ∧
            array lc = FrenetPath.cost_final <$> candidates ∧
            colorbars fig = [colorbar_range lc]) ∧
     title_n <$> fig_title fig = Some (length candidates) ∧
     (∀ lo hi,
        Py.min (FrenetPath.cost_final <$> candidates) = Some lo →
        Py.max (FrenetPath.cost_final <$> candidates) = Some hi →
        regular (lo, hi) →
        colorbars fig = [(lo, hi)] ∧
        (∃ fp, fp ∈ candidates ∧ FrenetPath.cost_final fp = lo) ∧
        (∃ fp, fp ∈ candidates ∧ FrenetPath.cost_final fp = hi) ∧
        ∀ fp, fp ∈ candidates →
          lo <= FrenetPath.cost_final fp ∧ FrenetPath.cost_final fp <= hi) ∧
     (∀ fp, candidates = [fp] →
        ∃ r, colorbars fig = [r] ∧ fst r < snd r)) ∧
  (candidates = [] → state_list traj ≠ [] →
   Forall (λ obs, is_Some (probe fuel obs)) (dynamic_obstacles (scenario inp)) →
   (t ≤ length (time_list w))%nat →
   ∃ fig w', compose_frame fuel inp traj t candidates w = (inr fig, w') ∧
     segments <$> collections fig = [[]] ∧ colorbars fig = [(0, 1)]).
Proof.
  assert (Hbar : ∀ fig w',
    compose_frame fuel inp traj t candidates w = (inr fig, w') →
    ∃ segs,
      build_segments (zip (candidate_xs candidates) (candidate_ys candidates))
        = inr segs ∧
      let lc := mkLineCollection segs (FrenetPath.cost_final <$> candidates)
                  "RdYlGn_r" 2 20 in
      collections fig = [lc] ∧ colorbars fig = [colorbar_range lc] ∧
      title_n <$> fig_title fig = Some (length candidates)).
  { intros fig w' Hrun.
    apply compose_frame_inv in Hrun
      as (segs & xl & yl & extra & time & Hsegs & _ & Hextra & _ & _ & ->).
    exists segs. split; [done|].
    unfold collections, colorbars. cbn [fig_ax artists ego_axes].
    rewrite omap_app, (obstacle_artists_no_collection extra Hextra).
    rewrite (obstacle_artists_colorbars _ extra Hextra). done. }
  split.
  - intros fig w' Hrun.
    destruct (Hbar fig w' Hrun) as (segs & _ & Hcol & Hc & Hn).
    split; [eexists; split; [exact Hcol|]; split; [reflexivity|exact Hc]|].
    split; [exact Hn|]. split.
    + intros lo hi Hmin Hmax Hreg.
      assert (Hcosts : FrenetPath.cost_final <$> candidates ≠ []).
      { intros Hnil. by rewrite Hnil in Hmin. }
      destruct (py_min_spec _ Hcosts) as (lo' & Hmin' & Hlo_in & Hlo).
      destruct (py_max_spec _ Hcosts) as (hi' & Hmax' & Hhi_in & Hhi).
      rewrite Hmin in Hmin'. rewrite Hmax in Hmax'.
      injection Hmin' as <-. injection Hmax' as <-.
      rewrite Hc, (colorbar_range_regular _ _ _ _ _ lo hi Hmin Hmax Hreg).
      split; [done|].
      apply list_elem_of_fmap in Hlo_in as (fp1 & Hfp1 & Hin1).
      apply list_elem_of_fmap in Hhi_in as (fp2 & Hfp2 & Hin2).
      split; [by exists fp1|]. split; [by exists fp2|].
      intros fp Hfp.
      split; [apply Hlo | apply Hhi];
        by apply (list_elem_of_fmap_2 FrenetPath.cost_final).
    + intros fp ->. eexists. split; [exact Hc|].
      unfold colorbar_range, clim. cbn [array fmap list_fmap Py.min Py.max
        fold_left mbind option_bind default].
      apply nonsingular_widens. reflexivity.
  - intros -> Hne Hobs Ht.
    destruct (compose_frame_total fuel inp traj t [] w) as [fig Hrun];
      [constructor|done..|].
    eexists fig, _. split; [exact Hrun|].
    destruct (Hbar fig _ Hrun) as (segs & Hsegs & Hcol & Hc & _).
    simpl in Hsegs. injection Hsegs as <-.
    rewrite Hcol, Hc. split; [reflexivity|].
    f_equal.
Qed.

End ColorbarProperties.

Lemma frame_colorbar_is_step_local_witness :
  ∃ fig w',
    compose_frame 10 (Demo.inputs (Some Demo.ego) [0.5; 0.25]
      [Demo.candidates0; []]) Demo.ego 1 [] Demo.timed_world = (inr fig, w') ∧
    segments <$> collections fig = [[]] ∧ colorbars fig = [(0, 1)].
Proof.
  apply (frame_colorbar_is_step_local 10
           (Demo.inputs (Some Demo.ego) [0.5; 0.25] [Demo.candidates0; []])
           Demo.ego 1 [] Demo.timed_world).
  - reflexivity.
  - simpl. discriminate.
  - repeat constructor. vm_compute. eauto.
  - simpl. lia.
Defined.

(** ** The probing loop on arbitrary obstacles *)

Section ProbeGapProperties.
Context `{Collaborators}.

Lemma states_up_to (obs : DynamicObstacle) (n : nat) :
  (∀ j, (j < n)%nat → is_Some (state_at_time obs j)) ∨
  ∃ k, (k < n)%nat ∧ state_at_time obs k = None ∧
       ∀ j, (j < k)%nat → is_Some (state_at_time obs j).
Proof.
  induction n as [|n [Hall|(k & Hk & Hnone & Hbefore)]].
  - left. intros j Hj. lia.
  - destruct (state_at_time obs n) as [s|] eqn:Hs.
    + left. intros j Hj.
      destruct (decide (j = n)) as [->|]; [rewrite Hs; by eexists|].
      apply Hall. lia.
    + right. exists n. split; [lia|done].
  - right. exists k. split; [lia|done].
Qed.

Lemma first_missing_index (obs : DynamicObstacle) (n : nat) :
  state_at_time obs n = None →
  ∃ k, (k ≤ n)%nat ∧ state_at_time obs k = None ∧
       ∀ j, (j < k)%nat → is_Some (state_at_time obs j).
Proof.
  intros Hnone.
  destruct (states_up_to obs n) as [Hall|(k & Hk & Hknone & Hbefore)].
  - by exists n.
  - exists k. split; [lia|done].
Qed.

Lemma probe_from_result fuel (obs : DynamicObstacle) :
  ∀ t p p', probe_from fuel obs t p = Some p' →
    ∃ n, state_at_time obs (t + n) = None ∧
         (∀ j, (j < n)%nat → is_Some (state_at_time obs (t + j))) ∧
         length (obs_traj_x p') = (length (obs_traj_x p) + n)%nat.
Proof.
  induction fuel as [|fuel IH]; intros t p p'; simpl; [done|].
  destruct (state_at_time obs t) as [s|] eqn:Hs.
  - intros Hrun. apply IH in Hrun as (n & Hnone & Hsome & Hlen).
    exists (S n). replace (t + S n)%nat with (S t + n)%nat by lia.
    split; [done|]. split.
    + intros [|j] Hj; [rewrite Nat.add_0_r; eauto|].
      replace (t + S j)%nat with (S t + j)%nat by lia. apply Hsome. lia.
    + rewrite Hlen. simpl. rewrite length_app. simpl. lia.
  - intros [= <-]. exists 0%nat. rewrite Nat.add_0_r. simpl.
    split; [done|]. split; [intros j Hj; lia | lia].
Qed.

(** X4.  The probing loop stops at the first index without a state, whatever
    states the obstacle has after it: with [k] the first missing index, every
    run that is given more than [k] loop tests returns the same result, the
    [k] positions of the states before the gap in index order, and has
    queried no index above [k]; states after the gap are never collected. *)
Theorem probe_stops_at_first_gap (obs : DynamicObstacle) (k : nat) :
  (∀ j, (j < k)%nat → is_Some (state_at_time obs j)) →
  state_at_time obs k = None →
  ∃ p,
    (∀ fuel, (k < fuel)%nat → probe fuel obs = Some p) ∧
    (∀ fuel, (fuel ≤ k)%nat → probe fuel obs = None) ∧
    length (obs_traj_x p) = k ∧ length (obs_traj_y p) = k ∧
    (∀ j s, (j < k)%nat → state_at_time obs j = Some s →
       obs_traj_x p !! j = Some (fst (position s)) ∧
       obs_traj_y p !! j = Some (snd (position s))) ∧
    Forall (λ q, q ≤ k)%nat (queried p).
Proof.
  intros Hsome Hnone. eexists. split.
  { intros fuel Hfuel. unfold probe.
    apply (probe_from_known obs k Hsome Hnone k 0); [done|lia]. }
  split.
  { intros fuel Hfuel. apply (probe_from_starved obs k Hsome). lia. }
  simpl. rewrite !length_fmap, !length_seq.
  split; [done|]. split; [done|]. split.
  { intros j s Hj Hs.
    rewrite !list_lookup_fmap, !lookup_seq_lt by done. simpl.
    by rewrite Hs. }
  apply Forall_app. split; [|by repeat constructor].
  apply Forall_forall. intros q Hq.
  apply list_elem_of_bind in Hq as (j & Hq & Hj).
  apply elem_of_seq in Hj.
  repeat (apply elem_of_cons in Hq as [->|Hq]; [lia|]). inversion Hq.
Qed.

(** X5.  The probing loop terminates exactly when the obstacle has an index
    without a state: for an obstacle with a state at every index no amount
    of loop tests finishes it, and drawing that obstacle never completes. *)
Theorem probe_terminates_iff_missing (obs : DynamicObstacle) :
  ((∃ fuel p, probe fuel obs = Some p) ↔ ∃ n, state_at_time obs n = None) ∧
  ((∀ n, is_Some (state_at_time obs n)) →
   ∀ fuel i ax, probe fuel obs = None ∧
                draw_obstacle fuel i obs ax = inl OutOfFuel).
Proof.
  assert (Hiff : (∃ fuel p, probe fuel obs = Some p)
                 ↔ ∃ n, state_at_time obs n = None).
  { split.
    - intros (fuel & p & Hrun). unfold probe in Hrun.
      apply probe_from_result in Hrun as (n & Hnone & _). eauto.
    - intros (n & Hnone).
      destruct (first_missing_index obs n Hnone) as (k & _ & Hk & Hbefore).
      exists (S k). eexists. unfold probe.
      apply (probe_from_known obs k Hbefore Hk k 0); [done|lia]. }
  split; [exact Hiff|].
  intros Hall fuel i ax.
  assert (Hnone : probe fuel obs = None).
  { destruct (probe fuel obs) as [p|] eqn:Hrun; [|done].
    destruct (proj1 Hiff) as [n Hn]; [eauto|].
    destruct (Hall n) as [s Hs]. congruence. }
  split; [exact Hnone|]. unfold draw_obstacle. by rewrite Hnone.
Qed.

End ProbeGapProperties.

Lemma probe_stops_at_first_gap_witness :
  ∃ p, probe (H := GapDemo.gap_collaborators) 3 GapDemo.gapped = Some p ∧
       probe (H := GapDemo.gap_collaborators) 9 GapDemo.gapped = Some p ∧
       obs_traj_x p = [10; 9].
Proof.
  destruct (probe_stops_at_first_gap (H := GapDemo.gap_collaborators)
              GapDemo.gapped 2) as (p & Hrun & _).
  - intros j Hj. destruct j as [|[|j]]; simpl; eauto. lia.
  - reflexivity.
  - exists p. split; [apply Hrun; lia|]. split; [apply Hrun; lia|].
    pose proof (Hrun 3%nat ltac:(lia)) as Hp. vm_compute in Hp.
    injection Hp as <-. reflexivity.
Defined.

Lemma probe_terminates_iff_missing_witness :
  probe (H := GapDemo.gap_collaborators) 1000 GapDemo.endless = None ∧
  ∃ fuel p, probe (H := GapDemo.gap_collaborators) fuel GapDemo.gapped = Some p.
Proof.
  destruct (probe_terminates_iff_missing (H := GapDemo.gap_collaborators)
              GapDemo.endless) as [_ Hdiv].
  destruct (probe_terminates_iff_missing (H := GapDemo.gap_collaborators)
              GapDemo.gapped) as [Hiff _].
  split.
  - apply (Hdiv (λ n, ltac:(simpl; eauto)) 1000%nat 0%nat new_axes).
  - apply (proj2 Hiff). exists 2%nat. reflexivity.
Defined.

(** ** Slices, strides and differences *)

Lemma lookup_stride_aux {A} (n : nat) (l : list A) :
  ∀ j k, Py.stride_aux n j l !! k = l !! (j + k * S n)%nat.
Proof.
  induction l as [|a l IH]; intros j k; simpl; [done|].
  destruct j as [|j].
  - destruct k as [|k]; simpl; [done|]. by rewrite IH.
  - rewrite IH. done.
Qed.

Lemma lookup_stride {A} (m : nat) (l : list A) (k : nat) :
  Py.stride (S m) l !! k = l !! (k * S m)%nat.
Proof. unfold Py.stride. simpl. by rewrite lookup_stride_aux. Qed.

Lemma lookup_diff (l : list Q) (k : nat) :
  Py.diff l !! k =
    match l !! k, l !! S k with
    | Some a, Some b => Some (b - a)
    | _, _ => None
    end.
Proof.
  revert k. induction l as [|a [|b l] IH]; intros k.
  - done.
  - simpl. by destruct k.
  - destruct k as [|k]; [done|].
    change (Py.diff (a :: b :: l)) with ((b - a) :: Py.diff (b :: l)).
    simpl. rewrite IH. done.
Qed.

Lemma lookup_but_last {A} (l : list A) (k : nat) :
  Py.but_last l !! k = if decide (S k < length l)%nat then l !! k else None.
Proof.
  unfold Py.but_last. revert k.
  induction l as [|a [|b l] IH]; intros k.
  - done.
  - case_decide; [simpl in *; lia|done].
  - change (removelast (a :: b :: l)) with (a :: removelast (b :: l)).
    destruct k as [|k].
    + case_decide; [done|simpl in *; lia].
    + change ((a :: removelast (b :: l)) !! S k)
        with (removelast (b :: l) !! k).
      change ((a :: b :: l) !! S k) with ((b :: l) !! k).
      rewrite IH. repeat case_decide; done || (simpl in *; lia).
Qed.

Lemma lookup_ego_x (l : list State) (k : nat) :
  ego_x l !! k = (λ s, fst (position s)) <$> l !! k.
Proof. unfold ego_x. apply list_lookup_fmap. Qed.

Lemma lookup_ego_y (l : list State) (k : nat) :
  ego_y l !! k = (λ s, snd (position s)) <$> l !! k.
Proof. unfold ego_y. apply list_lookup_fmap. Qed.

Lemma obstacle_coloured_no_quiver (c : string) extra :
  c ≠ "#BA55D3" → c ≠ "#1d7eea" →
  Forall obstacle_coloured extra →
  omap (λ a, match a with
             | Quiver xs ys us vs c' _ _ =>
                 if decide (c' = c) then Some (xs, ys, us, vs) else None
             | _ => None
             end) extra = [].
Proof.
  intros Hc1 Hc2. induction 1 as [|a extra Ha _ IH]; [done|].
  destruct a; simpl in *; try done.
  destruct Ha as [-> | ->]; by rewrite decide_False.
Qed.

(** ** Direction markers *)

Section MarkerProperties.
Context `{Collaborators}.

Lemma draw_obstacles_coloured fuel i obss ax ax' :
  draw_obstacles fuel i obss ax = inr ax' →
  ∃ extra, artists ax' = artists ax ++ extra ∧ Forall obstacle_coloured extra.
Proof.
  revert ax. induction obss as [|obs obss IH]; intros ax; simpl.
  - intros [= <-]. exists []. by rewrite app_nil_r.
  - unfold mbind, result_bind.
    destruct (draw_obstacle fuel i obs ax) as [e|ax1] eqn:Hobs; [done|].
    intros Hrest. apply IH in Hrest as (extra2 & Hart2 & Hall2).
    unfold draw_obstacle in Hobs. destruct (probe fuel obs) as [p|]; [|done].
    injection Hobs as <-. simpl in Hart2. eexists.
    rewrite Hart2, <- !app_assoc. split; [reflexivity|]. simpl.
    repeat apply Forall_cons_2; simpl; auto.
Qed.

Lemma compose_frame_artists fuel inp traj i candidates w fig w' :
  compose_frame fuel inp traj i candidates w = (inr fig, w') →
  ∃ lc xl yl extra,
    artists (fig_ax fig)
      = artists (ego_axes i lc (state_list traj) xl yl) ++ extra ∧
    Forall obstacle_coloured extra.
Proof.
  unfold compose_frame, multiline.
  unfold mbind at 1, M_bind, lift.
  destruct (build_segments _) as [e|segs]; [done|]. simpl.
  unfold mbind at 1, M_bind.
  destruct (square_limits _ _) as [e|[xl yl]]; [done|]. simpl.
  unfold mbind at 1, M_bind.
  destruct (draw_obstacles _ _ _ _) as [e|ax'] eqn:Hobs; [done|].
  apply draw_obstacles_coloured in Hobs as (extra & Hart & Hall).
  unfold mbind, M_bind, time_list_append, time_list_get, mret, M_ret. simpl.
  destruct ((time_list w ++ [0]) !! i) as [time|]; [|done].
  intros [= <- <-]. simpl. eexists _, xl, yl, extra. split; [|done].
  rewrite Hart. simpl. by destruct xl, yl.
Qed.

(** X6.  The ego direction markers of the frame of step [t] are one quiver
    in the colour of the future polyline.  Marker [k] sits at the state with
    index [t + 5k] and its arrow is the displacement to the next state; there
    is a marker for exactly those [k] for which the state [t + 5k] has a
    successor, so the last state never carries one, and the four arrays of
    the quiver have the same length. *)
Theorem ego_markers_every_fifth_state fuel inp traj t candidates w fig w' :
  compose_frame fuel inp traj t candidates w = (inr fig, w') →
  ∃ xs ys us vs,
    quivers_with_color "#AFEEEE" fig = [(xs, ys, us, vs)] ∧
    ∀ k,
      match state_list traj !! (t + k * 5)%nat,
            state_list traj !! S (t + k * 5)%nat with
      | Some s, Some s' =>
          xs !! k = Some (fst (position s)) ∧
          ys !! k = Some (snd (position s)) ∧
          us !! k = Some (fst (position s') - fst (position s)) ∧
          vs !! k = Some (snd (position s') - snd (position s))
      | _, _ =>
          xs !! k = None ∧ ys !! k = None ∧ us !! k = None ∧ vs !! k = None
      end.
Proof.
  intros Hrun.
  apply compose_frame_artists in Hrun as (lc & xl & yl & extra & Hart & Hextra).
  eexists _, _, _, _. split.
  { unfold quivers_with_color. rewrite Hart. simpl.
    by rewrite obstacle_coloured_no_quiver. }
  intros k. unfold Py.slice_from.
  rewrite !lookup_stride, !lookup_but_last, !lookup_diff.
  rewrite !lookup_ego_x, !lookup_ego_y, !lookup_drop.
  unfold ego_x, ego_y. rewrite !length_fmap, !length_drop.
  replace (t + S (k * 5))%nat with (S (t + k * 5)) by lia.
  destruct (state_list traj !! (t + k * 5)%nat) as [s|] eqn:Hs; simpl.
  - destruct (state_list traj !! S (t + k * 5)) as [s'|] eqn:Hs'; simpl.
    + apply lookup_lt_Some in Hs'.
      rewrite !decide_True by lia. done.
    + apply lookup_ge_None in Hs'.
      rewrite !decide_False by lia. done.
  - by repeat destruct (decide _).
Qed.

End MarkerProperties.

Lemma ego_markers_every_fifth_state_witness :
  ∃ fig, fst (compose_frame 10 (Demo.inputs (Some Demo.ego) [0.5; 0.25]
                [Demo.candidates0; Demo.candidates1]) Demo.ego 1
                Demo.candidates1 Demo.timed_world) = inr fig ∧
         quivers_with_color "#AFEEEE" fig = [([1], [0], [1], [1])].
Proof.
  destruct (compose_frame 10 (Demo.inputs (Some Demo.ego) [0.5; 0.25]
              [Demo.candidates0; Demo.candidates1]) Demo.ego 1
              Demo.candidates1 Demo.timed_world) as [[e|fig] w'] eqn:Hrun;
    [vm_compute in Hrun; discriminate|].
  destruct (ego_markers_every_fifth_state _ _ _ _ _ _ _ _ Hrun)
    as (xs & ys & us & vs & _).
  exists fig. split; [reflexivity|].
  vm_compute in Hrun. injection Hrun as <- _. reflexivity.
Defined.

(** ** The polylines of an obstacle *)

Section ObstacleProperties.
Context `{Collaborators}.

Lemma probed_positions (obs : DynamicObstacle) (k j : nat) :
  (∀ j, (j < k)%nat → is_Some (state_at_time obs j)) →
  ((λ j, from_option (λ s, fst (position s)) 0 (state_at_time obs j))
     <$> seq 0 k) !! j
  = (if decide (j < k)%nat
     then (λ s, fst (position s)) <$> state_at_time obs j else None) ∧
  ((λ j, from_option (λ s, snd (position s)) 0 (state_at_time obs j))
     <$> seq 0 k) !! j
  = (if decide (j < k)%nat
     then (λ s, snd (position s)) <$> state_at_time obs j else None).
Proof.
  intros Hsome. rewrite !list_lookup_fmap. case_decide as Hj.
  - rewrite lookup_seq_lt by done. simpl.
    by destruct (Hsome j Hj) as [s ->].
  - by rewrite lookup_seq_ge by lia.
Qed.

(** X7.  An obstacle with states at exactly the indices below [k] (and
    enough fuel for the probing): drawing it at step [i] adds two quivers
    and two polylines.  The past polyline holds the positions of the states
    with index below [i], the future polyline those from index [i] on, and
    both stop before the obstacle's last state: the state at index [k - 1]
    is in neither polyline. *)
Theorem obstacle_polylines_omit_last_state fuel i (obs : DynamicObstacle)
    (k : nat) (ax : Axes) :
  (∀ j, (j < k)%nat → is_Some (state_at_time obs j)) →
  state_at_time obs k = None →
  (k < fuel)%nat →
  ∃ ax' q_past q_future past_x past_y future_x future_y,
    draw_obstacle fuel i obs ax = inr ax' ∧
    artists ax' = artists ax ++
      [q_past; q_future;
       Plot past_x past_y "#BA55D3" 0.8 25 0.6;
       Plot future_x future_y "#1d7eea" 0.8 25 0.6] ∧
    obstacle_coloured q_past ∧ obstacle_coloured q_future ∧
    (∀ j, past_x !! j =
            if decide (j < i ∧ S j < k)%nat
            then (λ s, fst (position s)) <$> state_at_time obs j else None) ∧
    (∀ j, past_y !! j =
            if decide (j < i ∧ S j < k)%nat
            then (λ s, snd (position s)) <$> state_at_time obs j else None) ∧
    (∀ j, future_x !! j =
            if decide (S (i + j) < k)%nat
            then (λ s, fst (position s)) <$> state_at_time obs (i + j)%nat
            else None) ∧
    (∀ j, future_y !! j =
            if decide (S (i + j) < k)%nat
            then (λ s, snd (position s)) <$> state_at_time obs (i + j)%nat
            else None).
Proof.
  intros Hsome Hnone Hfuel.
  unfold draw_obstacle, probe.
  rewrite (probe_from_known obs k Hsome Hnone k 0) by (done || lia).
  cbn [obs_traj_x obs_traj_y app].
  eexists _, _, _, _, _, _, _. split; [reflexivity|].
  cbn [artists add_artist]. rewrite <- !app_assoc. split; [reflexivity|].
  split; [by left|]. split; [by right|].
  unfold Py.slice, Py.slice_from.
  repeat split; intros j;
    rewrite ?lookup_drop, ?lookup_take, ?lookup_but_last, ?length_fmap,
      ?length_seq;
    cbn [Nat.add];
    [destruct (probed_positions obs k j Hsome) as [-> _]
    |destruct (probed_positions obs k j Hsome) as [_ ->]
    |destruct (probed_positions obs k (i + j) Hsome) as [-> _]
    |destruct (probed_positions obs k (i + j) Hsome) as [_ ->]];
    repeat case_decide; simpl in *; done || lia.
Qed.

End ObstacleProperties.

Lemma obstacle_polylines_omit_last_state_witness :
  ∃ ax', draw_obstacle 10 1 Demo.other new_axes = inr ax' ∧
    artists ax' !! 2%nat = Some (Plot [10] [5] "#BA55D3" 0.8 25 0.6) ∧
    artists ax' !! 3%nat = Some (Plot [9] [5] "#1d7eea" 0.8 25 0.6).
Proof.
  destruct (obstacle_polylines_omit_last_state 10 1 Demo.other 3 new_axes)
    as (ax' & ? & ? & ? & ? & ? & ? & Hrun & _).
  - intros j Hj. destruct j as [|[|[|j]]]; simpl; eauto; lia.
  - reflexivity.
  - lia.
  - exists ax'. split; [exact Hrun|].
    vm_compute in Hrun. injection Hrun as <-. split; reflexivity.
Defined.

(** ** The time list during a run *)

Section TimeListProperties.
Context `{Collaborators}.

Lemma frame_body_spec fuel inp traj i candidates w im w' :
  frame_body fuel inp traj i candidates w = (inr im, w') →
  ∃ fig time,
    (time_list w ++ [0]) !! i = Some time ∧
    fig_title fig
      = Some (mkTitle method (length candidates) (Py.round3 time)) ∧
    frame_index fig = Some i ∧
    files w' = <[file_path inp i := Jpg fig]> (files w) ∧
    time_list w' = time_list w ++ [0].
Proof.
  unfold frame_body, mbind, M_bind.
  destruct (compose_frame fuel inp traj i candidates w) as [[e|fig] w1] eqn:Hfig;
    [done|].
  destruct (save_frame_spec inp i fig w1) as (w2 & -> & Hfiles & Htl).
  intros [= <- <-].
  apply compose_frame_inv in Hfig
    as (segs & xl & yl & extra & time & _ & _ & _ & Htime & -> & ->).
  simpl in *.
  match type of Hfiles with
  | _ = <[_ := Jpg ?fig]> _ => exists fig, time
  end.
  by rewrite Hfiles, Htl.
Qed.

(** What the loop does to the time list and which time each title shows,
    when it starts at step [i0] and runs through [rest]. *)
Lemma frame_loop_times fuel inp traj rest :
  ∀ i0 images0 loc0 w images loc w1,
    frame_loop fuel inp traj i0 rest images0 loc0 w = (inr (images, loc), w1) →
    time_list w1 = time_list w ++ replicate (length rest) 0 ∧
    ∀ k candidates, rest !! k = Some candidates →
      ∃ fig time,
        files w1 !! file_path inp (i0 + k)%nat = Some (Jpg fig) ∧
        (time_list w ++ replicate (S k) 0) !! (i0 + k)%nat = Some time ∧
        fig_title fig
          = Some (mkTitle method (length candidates) (Py.round3 time)).
Proof.
  induction rest as [|candidates rest IH];
    intros i0 images0 loc0 w images loc w1; simpl.
  - intros [= <- <- <-]. by rewrite app_nil_r.
  - unfold mbind, M_bind.
    destruct (frame_body fuel inp traj i0 candidates w) as [[e|im] w0] eqn:Hbody;
      [done|].
    intros Hrest.
    pose proof Hrest as Hfiles.
    apply frame_loop_inv in Hfiles as (_ & _ & Hother & _).
    apply IH in Hrest as (Htl & Htitles).
    apply frame_body_spec in Hbody
      as (fig & time & Htime & Htitle & _ & Hfile & Htl0).
    rewrite Htl0 in Htl, Htitles.
    split. { by rewrite Htl, <- app_assoc. }
    intros [|k] cands Hk; simpl in Hk.
    + injection Hk as <-. rewrite Nat.add_0_r. exists fig, time.
      split; [|done].
      rewrite Hother.
      * rewrite Hfile. apply lookup_insert_eq.
      * intros k Hk Heq. apply file_path_inj in Heq. lia.
    + destruct (Htitles k cands Hk) as (fig' & time' & Hfile' & Htime' & Htitle').
      replace (i0 + S k)%nat with (S i0 + k)%nat by lia.
      exists fig', time'. split; [done|]. split; [|done].
      rewrite <- Htime'. by rewrite <- app_assoc.
Qed.

(** X8.  In the frames the loop of line 226 has composed from step 0, the
    title of frame [i] counts the candidates of step [i] and shows the time
    the planner reported for step [i], rounded to three decimals, when the
    time list had an entry for that step on entry to the loop, and 0
    otherwise: reading [time_list[i]] cannot fail, because every step appends
    an entry before it reads. *)
Theorem frame_titles_show_step_times fuel inp traj w images loc w1 :
  frame_loop fuel inp traj 0 (fplist (planned inp)) [] None w
    = (inr (images, loc), w1) →
  ∀ i candidates, fplist (planned inp) !! i = Some candidates →
    ∃ fig,
      files w1 !! file_path inp i = Some (Jpg fig) ∧
      fig_title fig
        = Some (mkTitle "FISS+" (length candidates)
                  (Py.round3 (default 0 (time_list w !! i)))).
Proof.
  intros Hloop i candidates Hi.
  apply frame_loop_times in Hloop as [_ Htitles].
  destruct (Htitles i candidates Hi) as (fig & time & Hfile & Htime & Htitle).
  change (0 + i)%nat with i in Hfile, Htime. exists fig.
  split. { exact Hfile. }
  rewrite Htitle. do 3 f_equal.
  destruct (time_list w !! i) as [v|] eqn:Hv; simpl.
  - rewrite lookup_app_l in Htime by (by eapply lookup_lt_Some).
    congruence.
  - apply lookup_ge_None in Hv.
    rewrite lookup_app_r in Htime by done.
    apply lookup_replicate in Htime as [-> _]. done.
Qed.

(** X9.  The loop grows the planner's time list: when it has composed its
    [n] frames, the list it started with is followed by [n] zeros, and
    nothing else of it has changed. *)
Theorem frame_loop_pads_time_list fuel inp traj rest i0 images0 loc0 w
    images loc w1 :
  frame_loop fuel inp traj i0 rest images0 loc0 w = (inr (images, loc), w1) →
  time_list w1 = time_list w ++ replicate (length rest) 0 ∧
  length (time_list w1) = (length (time_list w) + length rest)%nat ∧
  ∀ j v, time_list w !! j = Some v → time_list w1 !! j = Some v.
Proof.
  intros Hloop. apply frame_loop_times in Hloop as [Htl _].
  split; [exact Htl|]. rewrite Htl. split.
  - by rewrite length_app, length_replicate.
  - intros j v Hv. by apply lookup_app_l_Some.
Qed.

End TimeListProperties.

Lemma frame_titles_show_step_times_witness :
  ∃ fig0 fig1 w1 images loc,
    frame_loop 10 (Demo.inputs (Some Demo.ego) [0.5]
        [Demo.candidates0; Demo.candidates1]) Demo.ego 0
        [Demo.candidates0; Demo.candidates1] [] None
        (mkWorld [0.5] ∅ ∅ []) = (inr (images, loc), w1) ∧
    files w1 !! file_path (Demo.inputs (Some Demo.ego) [0.5]
        [Demo.candidates0; Demo.candidates1]) 0 = Some (Jpg fig0) ∧
    files w1 !! file_path (Demo.inputs (Some Demo.ego) [0.5]
        [Demo.candidates0; Demo.candidates1]) 1 = Some (Jpg fig1) ∧
    fig_title fig0 = Some (mkTitle "FISS+" 2 (Py.round3 0.5)) ∧
    fig_title fig1 = Some (mkTitle "FISS+" 1 (Py.round3 0)).
Proof.
  pose (inp := Demo.inputs (Some Demo.ego) [0.5]
                 [Demo.candidates0; Demo.candidates1]).
  destruct (frame_loop 10 inp Demo.ego 0 (fplist (planned inp)) [] None
              (mkWorld [0.5] ∅ ∅ []))
    as [[e|[images loc]] w1] eqn:Hloop; [vm_compute in Hloop; discriminate|].
  pose proof (frame_titles_show_step_times 10 inp Demo.ego _ _ _ _ Hloop)
    as Htitles.
  destruct (Htitles 0%nat Demo.candidates0 eq_refl) as (fig0 & Hf0 & Ht0).
  destruct (Htitles 1%nat Demo.candidates1 eq_refl) as (fig1 & Hf1 & Ht1).
  exists fig0, fig1, w1, images, loc.
  split; [exact Hloop|]. split; [exact Hf0|]. split; [exact Hf1|].
  split; [exact Ht0 | exact Ht1].
Defined.

Lemma frame_loop_pads_time_list_witness :
  ∃ w1 images loc,
    frame_loop 10 (Demo.inputs (Some Demo.ego) [0.5]
        [Demo.candidates0; Demo.candidates1]) Demo.ego 0
        [Demo.candidates0; Demo.candidates1] [] None
        (mkWorld [0.5] ∅ ∅ []) = (inr (images, loc), w1) ∧
    time_list w1 = [0.5; 0; 0].
Proof.
  pose (inp := Demo.inputs (Some Demo.ego) [0.5]
                 [Demo.candidates0; Demo.candidates1]).
  destruct (frame_loop 10 inp Demo.ego 0
              [Demo.candidates0; Demo.candidates1] [] None
              (mkWorld [0.5] ∅ ∅ []))
    as [[e|[images loc]] w1] eqn:Hloop; [vm_compute in Hloop; discriminate|].
  destruct (frame_loop_pads_time_list 10 inp Demo.ego _ _ _ _ _ _ _ _ Hloop)
    as (Htl & _).
  exists w1, images, loc. split; [exact Hloop | exact Htl].
Defined.

(** ** Outcomes of a whole run *)

Lemma last_char_app (s t : string) :
  t ≠ "" → last_char (s +:+ t) = last_char t.
Proof.
  intros Ht. induction s as [|a s IH]; [done|].
  change (String a s +:+ t) with (String a (s +:+ t)).
  simpl. rewrite IH. destruct (s +:+ t) eqn:Hst; [|done].
  destruct s; [|done]. simpl in Hst. done.
Qed.

Lemma last_char_path_join (a b : string) :
  b ≠ "" → last_char (path_join a b) = last_char b.
Proof.
  intros Hb. unfold path_join.
  destruct (starts_with_slash b); [done|].
  destruct (decide (a = "")); [done|].
  destruct (ends_with_slash a).
  - by apply last_char_app.
  - rewrite last_char_app; [by apply (last_char_app "/")|].
    by destruct b.
Qed.

Section OutcomeProperties.
Context `{Collaborators}.

Lemma last_char_solution_path (inp : ScriptInputs) :
  last_char (solution_path inp) = Some "l"%char.
Proof.
  unfold solution_path, solution_filename.
  rewrite last_char_path_join, !last_char_app; [done..| |].
  - by destruct (benchmark_id _).
  - done.
Qed.

Lemma solution_is_no_frame (inp : ScriptInputs) (i : nat) :
  solution_path inp ≠ file_path inp i.
Proof.
  intros Heq. apply (f_equal last_char) in Heq.
  rewrite last_char_solution_path in Heq. unfold file_path in Heq.
  rewrite last_char_path_join, last_char_app in Heq; [done..|].
  by destruct (pretty i).
Qed.

Lemma solution_is_no_gif (inp : ScriptInputs) (sid : string) :
  solution_path inp ≠ gif_filepath inp sid.
Proof.
  intros Heq. apply (f_equal last_char) in Heq.
  rewrite last_char_solution_path in Heq. unfold gif_filepath in Heq.
  rewrite last_char_path_join, last_char_app in Heq; [done..|].
  by destruct sid.
Qed.

Lemma compose_frame_error_kinds fuel inp traj i candidates w e :
  fst (compose_frame fuel inp traj i candidates w) = inl e →
  e = ValueError ∨ e = OutOfFuel ∨
  (e = IndexError ∧ (length (time_list w) < i)%nat).
Proof.
  unfold compose_frame.
  unfold mbind at 1, M_bind, lift.
  destruct (multiline _ _ _ _ _) as [e1|[lc ax]] eqn:Hm.
  { simpl. intros [= <-]. left. by eapply multiline_error. }
  unfold mbind at 1, M_bind.
  destruct (square_limits _ _) as [e1|[xl yl]] eqn:Hl.
  { simpl. intros [= <-]. left. by eapply square_limits_error. }
  unfold mbind at 1, M_bind.
  destruct (draw_obstacles _ _ _ _) as [e1|ax'] eqn:Ho.
  { simpl. intros [= <-]. right. left. by eapply draw_obstacles_error. }
  unfold mbind, M_bind, time_list_append, time_list_get, mret, M_ret. simpl.
  destruct ((time_list w ++ [0]) !! i) as [time|] eqn:Htime; [done|].
  simpl. intros [= <-]. right. right. split; [done|].
  apply lookup_ge_None in Htime. rewrite length_app in Htime. simpl in Htime.
  lia.
Qed.

Lemma frame_body_error_kinds fuel inp traj i candidates w e :
  fst (frame_body fuel inp traj i candidates w) = inl e →
  e = ValueError ∨ e = OutOfFuel ∨
  (e = IndexError ∧ (length (time_list w) < i)%nat).
Proof.
  unfold frame_body, mbind, M_bind.
  destruct (compose_frame fuel inp traj i candidates w) as [[e1|fig] w1] eqn:Hfig.
  - simpl. intros [= <-].
    apply (compose_frame_error_kinds fuel inp traj i candidates w).
    by rewrite Hfig.
  - by destruct (save_frame_spec inp i fig w1) as (w2 & -> & _).
Qed.

Lemma frame_loop_error_kinds fuel inp traj rest :
  ∀ i images loc w e, (i ≤ length (time_list w))%nat →
    fst (frame_loop fuel inp traj i rest images loc w) = inl e →
    e = ValueError ∨ e = OutOfFuel.
Proof.
  induction rest as [|candidates rest IH]; intros i images loc w e Hi; simpl;
    [done|].
  unfold mbind, M_bind.
  destruct (frame_body fuel inp traj i candidates w) as [[e1|im] w1] eqn:Hbody.
  - simpl. intros [= <-].
    destruct (frame_body_error_kinds fuel inp traj i candidates w e1)
      as [?|[?|[_ ?]]]; [by rewrite Hbody|auto|auto|lia].
  - apply frame_body_spec in Hbody as (_ & _ & _ & _ & _ & _ & Htl).
    apply IH. rewrite Htl, length_app. simpl. lia.
Qed.

Lemma frame_body_keeps_files fuel inp traj i candidates w (p : string) :
  p ≠ file_path inp i →
  files (snd (frame_body fuel inp traj i candidates w)) !! p = files w !! p.
Proof.
  intros Hp. unfold frame_body, mbind, M_bind.
  pose proof (compose_frame_world fuel inp traj i candidates w) as (Hf & _).
  destruct (compose_frame fuel inp traj i candidates w) as [[e1|fig] w1].
  - simpl in *. by rewrite Hf.
  - destruct (save_frame_spec inp i fig w1) as (w2 & -> & Hfiles & _).
    simpl in *. rewrite Hfiles, lookup_insert_ne by done. by rewrite Hf.
Qed.

Lemma frame_loop_keeps_files fuel inp traj rest (p : string) :
  (∀ i, p ≠ file_path inp i) →
  ∀ i images loc w,
    files (snd (frame_loop fuel inp traj i rest images loc w)) !! p
    = files w !! p.
Proof.
  intros Hp. induction rest as [|candidates rest IH]; intros i images loc w;
    simpl; [done|].
  unfold mbind, M_bind.
  pose proof (frame_body_keeps_files fuel inp traj i candidates w p (Hp i))
    as Hbody.
  destruct (frame_body fuel inp traj i candidates w) as [[e1|im] w1];
    simpl in *; [done|].
  by rewrite IH.
Qed.

Lemma encode_keeps_files inp images loc w (p : string) :
  (∀ sid, p ≠ gif_filepath inp sid) →
  files (snd (encode inp images loc w)) !! p = files w !! p.
Proof.
  intros Hp. unfold encode, mbind, M_bind.
  destruct (ensure_dir_spec (gif_dirpath inp) w) as (w1 & -> & Hfiles & _).
  destruct loc as [sid|]; [|simpl; by rewrite Hfiles].
  unfold save_gif. destruct images as [|im ims]; [simpl; by rewrite Hfiles|].
  unfold image_save, mbind, M_bind.
  assert (Hload : ∀ l w0, snd (image_load_all l w0) = w0).
  { induction l as [|a l IHl]; intros w0; simpl; [done|].
    unfold mbind, M_bind, image_load.
    destruct (files w0 !! a) as [[fig| |]|]; simpl; try done.
    specialize (IHl w0). by destruct (image_load_all l w0) as [[?|?] ?]. }
  specialize (Hload (im :: ims) w1).
  destruct (image_load_all (im :: ims) w1) as [[e|figs] w2]; simpl in *; subst.
  - by rewrite Hfiles.
  - by rewrite lookup_insert_ne, Hfiles.
Qed.

(** The encoder after a loop that has stored its frames. *)
Lemma encode_stored inp (images : list Image) (sid : string) w1 :
  images ≠ [] →
  (∀ im, im ∈ images → ∃ fig, files w1 !! im = Some (Jpg fig)) →
  ∃ figs w2,
    encode inp images (Some sid) w1 = (inr (), w2) ∧
    files w2 = <[gif_filepath inp sid := GifFile (mkGif figs 100 0)]> (files w1) ∧
    time_list w2 = time_list w1 ∧
    length figs = length images.
Proof.
  intros Hne Hstored.
  destruct (ensure_dir_spec (gif_dirpath inp) w1) as (w1' & Hdir & Hfiles & Htl).
  rewrite <- Hfiles in Hstored.
  destruct (stored_figures images w1' Hstored) as [figs Hfigs].
  pose proof (image_load_all_spec images figs w1' Hfigs) as Hload.
  exists figs. eexists. split.
  { unfold encode, mbind, M_bind. rewrite Hdir.
    unfold save_gif, image_save. destruct images as [|im ims]; [done|].
    unfold mbind, M_bind. rewrite Hload. reflexivity. }
  simpl. rewrite Hfiles, Htl. split; [done|]. split; [done|].
  symmetry. by eapply Forall2_length.
Qed.

Lemma frame_loop_stores fuel inp traj rest i0 images0 loc0 w images loc w1 :
  frame_loop fuel inp traj i0 rest images0 loc0 w = (inr (images, loc), w1) →
  images0 = [] → rest ≠ [] →
  loc = Some scenario_id ∧ images ≠ [] ∧ length images = length rest ∧
  ∀ im, im ∈ images → ∃ fig, files w1 !! im = Some (Jpg fig).
Proof.
  intros Hloop -> Hne.
  apply frame_loop_inv in Hloop as (-> & -> & _ & Hframes). simpl.
  split; [by destruct rest|].
  split; [by destruct rest|].
  split; [by rewrite length_fmap, length_seq|].
  intros im Him.
  apply list_elem_of_fmap in Him as (i & -> & Hi).
  apply elem_of_seq in Hi.
  destruct (lookup_lt_is_Some_2 rest (i - i0)) as [cands Hc]; [lia|].
  destruct (Hframes _ cands Hc) as (fig & _ & _ & _ & Hfile).
  replace (i0 + (i - i0))%nat with i in Hfile by lia. eauto.
Qed.

End OutcomeProperties.

Section RunOutcomeProperties.
Context `{Collaborators}.

Lemma gif_is_no_frame (inp : ScriptInputs) (sid : string) (i : nat) :
  gif_filepath inp sid ≠ file_path inp i.
Proof.
  intros Heq. apply (f_equal last_char) in Heq.
  unfold gif_filepath, file_path in Heq.
  rewrite !last_char_path_join, !last_char_app in Heq; [done..| |].
  - by destruct (pretty i).
  - by destruct sid.
Qed.

Lemma animated_export_no_RuntimeError fuel inp traj w :
  fst (animated_export fuel inp traj w) ≠ inl RuntimeError.
Proof.
  unfold animated_export.
  apply never_raises_bind; [apply never_raises_frame_loop|].
  intros [images loc]. apply never_raises_encode.
Qed.

(** A run with a trajectory, by cases on what stops it before the export. *)
Lemma planning_example_with_trajectory fuel inp traj w :
  ego_vehicle_trajectory (planned inp) = Some traj →
  planning_example fuel inp w =
    match validation_error (scenario inp) (initial_state inp) traj with
    | Some RuntimeError =>
        print ("    " +:+ file +:+ " not feasible, proceding to next file!")
          (mkWorld (planned_time_list (planned inp))
             (files w) (dirs w) (stdout w))
    | Some e =>
        (inl e, mkWorld (planned_time_list (planned inp))
                  (files w) (dirs w) (stdout w))
    | None =>
        if decide ("./data/solution" ∈ dirs w) then
          (match fst (animated_export fuel inp traj (export_world inp traj w))
           with
           | inl e => inl e
           | inr _ => inr ()
           end,
           snd (animated_export fuel inp traj (export_world inp traj w)))
        else
          (inl NotADirectoryError,
           mkWorld (planned_time_list (planned inp))
             (files w) (dirs w) (stdout w))
    end.
Proof.
  intros Htraj.
  unfold planning_example, try_except_RuntimeError, try_block, export_block.
  rewrite Htraj. unfold validation, save_allFrenet_visualization.
  unfold mbind at 1 2 3, M_bind, set_time_list, lift.
  destruct (validation_error _ _ _) as [e|]; [by destruct e|].
  unfold mbind at 1 2, M_bind, write_to_file, write_file. cbn [dirs].
  destruct (decide ("./data/solution" ∈ dirs w)) as [Hdir|Hdir]; [|done].
  cbv beta iota. unfold export_world, solution_path.
  cbn [time_list files dirs stdout].
  match goal with
  | |- context [animated_export fuel inp traj ?w0] =>
      pose proof (animated_export_no_RuntimeError fuel inp traj w0) as Hnever;
      destruct (animated_export fuel inp traj w0) as [[e|[]] w1]
  end; simpl in *; [by destruct e|done].
Qed.

Lemma animated_export_outcome fuel inp traj w :
  match fst (animated_export fuel inp traj w) with
  | inl e =>
      (e = UnboundLocalError ∧ fplist (planned inp) = []) ∨
      ((e = ValueError ∨ e = OutOfFuel) ∧ fplist (planned inp) ≠ [])
  | inr _ => fplist (planned inp) ≠ []
  end.
Proof.
  unfold animated_export, mbind, M_bind.
  destruct (frame_loop fuel inp traj 0 (fplist (planned inp)) [] None w)
    as [[e|[images loc]] w1] eqn:Hloop.
  - simpl. right. split.
    + apply (frame_loop_error_kinds fuel inp traj (fplist (planned inp))
               0 [] None w e); [lia|by rewrite Hloop].
    + intros Hnil. rewrite Hnil in Hloop. done.
  - destruct (fplist (planned inp)) as [|c rest] eqn:Hfp.
    + simpl in Hloop. injection Hloop as <- <- <-.
      unfold encode, mbind, M_bind.
      destruct (ensure_dir_spec (gif_dirpath inp) w) as (w2 & -> & _).
      simpl. by left.
    + destruct (frame_loop_stores _ _ _ _ _ _ _ _ _ _ _ Hloop eq_refl)
        as (-> & Hne & _ & Hstored); [done|].
      destruct (encode_stored inp images scenario_id w1 Hne Hstored)
        as (figs & w2 & -> & _).
      done.
Qed.

(** X10.  Errors of the script's own statements.  No [RuntimeError] ever
    leaves [planning_example]: the handler takes them all.  The subscripts
    [time_list[i]] and [images[0]] and the reopening of a frame file never
    fail: a run ends in [IndexError], [FileNotFoundError] or
    [UnidentifiedImageError] only if a library call of the validation code
    raises it.  The unbound [scenario_id] of line 316 is read exactly in the
    runs that reach the export with no step to draw, and the solution writer
    refuses exactly the runs that reach it without its directory. *)
Theorem planning_example_failures fuel (inp : ScriptInputs) (w : World) :
  fst (planning_example fuel inp w) ≠ inl RuntimeError ∧
  (∀ e, e = IndexError ∨ e = FileNotFoundError ∨ e = UnidentifiedImageError →
     fst (planning_example fuel inp w) = inl e →
     ∃ traj, ego_vehicle_trajectory (planned inp) = Some traj ∧
             validation_error (scenario inp) (initial_state inp) traj = Some e) ∧
  (fst (planning_example fuel inp w) = inl UnboundLocalError ↔
     ∃ traj, ego_vehicle_trajectory (planned inp) = Some traj ∧
       (validation_error (scenario inp) (initial_state inp) traj
          = Some UnboundLocalError ∨
        (validation_error (scenario inp) (initial_state inp) traj = None ∧
         "./data/solution" ∈ dirs w ∧ fplist (planned inp) = []))) ∧
  (fst (planning_example fuel inp w) = inl NotADirectoryError ↔
     ∃ traj, ego_vehicle_trajectory (planned inp) = Some traj ∧
       (validation_error (scenario inp) (initial_state inp) traj
          = Some NotADirectoryError ∨
        (validation_error (scenario inp) (initial_state inp) traj = None ∧
         "./data/solution" ∉ dirs w))).
Proof.
  destruct (ego_vehicle_trajectory (planned inp)) as [traj|] eqn:Htraj.
  - rewrite (planning_example_with_trajectory fuel inp traj w Htraj).
    destruct (validation_error (scenario inp) (initial_state inp) traj)
      as [e|] eqn:Herr.
    + assert (Hout : fst (match e with
                | RuntimeError =>
                    print ("    " +:+ file +:+
                           " not feasible, proceding to next file!")
                      (mkWorld (planned_time_list (planned inp))
                         (files w) (dirs w) (stdout w))
                | _ => (inl e, mkWorld (planned_time_list (planned inp))
                                 (files w) (dirs w) (stdout w))
                end) = if decide (e = RuntimeError) then inr () else inl e).
      { by destruct e. }
      rewrite Hout. clear Hout.
      destruct (decide (e = RuntimeError)) as [->|Hne].
      * split; [done|]. split; [done|].
        split; (split; [done|]);
          intros (traj' & [= <-] & [?|(? & _)]); congruence.
      * split; [congruence|]. split.
        { intros e' _ [= <-]. by exists traj. }
        split; (split;
          [intros [= ->]; exists traj; split; [done|by left]
          |intros (traj' & [= <-] & [?|(? & _)]); congruence]).
    + destruct (decide ("./data/solution" ∈ dirs w)) as [Hdir|Hdir].
      * pose proof (animated_export_outcome fuel inp traj
                      (export_world inp traj w)) as Hout.
        destruct (animated_export fuel inp traj (export_world inp traj w))
          as [[e|[]] w1]; simpl in *.
        -- split.
           { destruct Hout as [[-> _]|[[->| ->] _]]; done. }
           split.
           { intros e' He' [= <-].
             destruct Hout as [[-> _]|[[->| ->] _]];
               by destruct He' as [?|[?|?]]. }
           split; split.
           ++ intros [= ->]. exists traj. split; [done|]. right.
              destruct Hout as [[_ ?]|[[?|?] _]]; done.
           ++ intros (traj' & [= <-] & [?|(_ & _ & Hnil)]); [congruence|].
              destruct Hout as [[-> _]|[_ ?]]; done.
           ++ intros [= ->]. destruct Hout as [[? _]|[[?|?] _]]; done.
           ++ intros (traj' & [= <-] & [?|(_ & ?)]); [congruence|done].
        -- split; [done|]. split; [done|].
           split; (split; [done|]).
           ++ intros (traj' & [= <-] & [?|(_ & _ & ?)]); [congruence|done].
           ++ intros (traj' & [= <-] & [?|(_ & ?)]); [congruence|done].
      * simpl. split; [done|]. split.
        { by intros e' [->|[->| ->]]. }
        split.
        -- split; [done|].
           intros (traj' & [= <-] & [?|(_ & ? & _)]); [congruence|done].
        -- split; [|done]. intros _. exists traj. split; [done|]. by right.
  - assert (Hrun : fst (planning_example fuel inp w) = inr ()).
    { unfold planning_example, try_except_RuntimeError, try_block.
      by rewrite Htraj. }
    rewrite Hrun. split; [done|]. split; [done|].
    split; (split; [done|]); by intros (? & ? & _).
Qed.

(** X11.  A run that gets through validation and finds the directory of the
    solution file completes on sound inputs: with a trajectory of at least
    one state, at least one step, candidates that have as many x as y
    samples and obstacles whose probing finishes within the fuel,
    [planning_example] returns normally; afterwards a GIF is at its path,
    every frame file [i.jpg] and the solution file are in place, and the
    planner's time list has grown by one zero per step. *)
Theorem planning_example_completes fuel (inp : ScriptInputs) traj w :
  ego_vehicle_trajectory (planned inp) = Some traj →
  validation_error (scenario inp) (initial_state inp) traj = None →
  "./data/solution" ∈ dirs w →
  state_list traj ≠ [] →
  fplist (planned inp) ≠ [] →
  Forall (Forall (λ fp, length (FrenetPath.x fp) = length (FrenetPath.y fp)))
         (fplist (planned inp)) →
  Forall (λ obs, is_Some (probe fuel obs)) (dynamic_obstacles (scenario inp)) →
  ∃ w' gif,
    planning_example fuel inp w = (inr (), w') ∧
    files w' !! gif_filepath inp scenario_id = Some (GifFile gif) ∧
    (∀ i, (i < length (fplist (planned inp)))%nat →
       ∃ fig, files w' !! file_path inp i = Some (Jpg fig)) ∧
    files w' !! solution_path inp
      = Some (SolutionFile (mkSolution (scenario_id_of (scenario inp))
                              (planning_problem_id inp) traj)) ∧
    time_list w'
      = planned_time_list (planned inp)
        ++ replicate (length (fplist (planned inp))) 0.
Proof.
  intros Htraj Hvalid Hdir Hne Hfp Hwf Hobs.
  rewrite (planning_example_with_trajectory fuel inp traj w Htraj), Hvalid.
  rewrite decide_True by done.
  set (w0 := export_world inp traj w).
  destruct (frame_loop_total fuel inp traj (fplist (planned inp)) Hwf Hne Hobs
              0 [] None w0) as (images & loc & w1 & Hloop); [lia|].
  pose proof Hloop as Hinv.
  apply frame_loop_inv in Hinv as (_ & _ & Hother & Hframes).
  pose proof Hloop as Htimes.
  apply frame_loop_times in Htimes as [Htl _].
  destruct (frame_loop_stores _ _ _ _ _ _ _ _ _ _ _ Hloop eq_refl Hfp)
    as (-> & Himages & Hlen & Hstored).
  destruct (encode_stored inp images scenario_id w1 Himages Hstored)
    as (figs & w2 & Henc & Hfiles & Htl2 & Hfigs).
  unfold animated_export, mbind, M_bind. rewrite Hloop, Henc. simpl.
  exists w2, (mkGif figs 100 0). split; [done|]. rewrite Hfiles.
  split; [apply lookup_insert_eq|]. split.
  { intros i Hi.
    destruct (lookup_lt_is_Some_2 (fplist (planned inp)) i Hi) as [cands Hc].
    destruct (Hframes i cands Hc) as (fig & _ & _ & _ & Hfile).
    exists fig. rewrite lookup_insert_ne by apply gif_is_no_frame. done. }
  split.
  { rewrite lookup_insert_ne by (intros Heq; by eapply solution_is_no_gif).
    rewrite Hother.
    - subst w0. simpl. apply lookup_insert_eq.
    - intros k _. apply solution_is_no_frame. }
  by rewrite Htl2, Htl.
Qed.

(** X12.  The solution file is written before any frame is drawn and no
    later step touches it: in a run that gets through validation and finds
    the directory of the solution file, that file holds the planner's
    trajectory after [planning_example], whether the export then succeeded
    or failed.  In a run that stops before, because the planner returned no
    trajectory, a validation call raised or the directory is missing, no
    file is written at all. *)
Theorem solution_file_outlives_export fuel (inp : ScriptInputs) (w : World) :
  (∀ traj, ego_vehicle_trajectory (planned inp) = Some traj →
     validation_error (scenario inp) (initial_state inp) traj = None →
     "./data/solution" ∈ dirs w →
     files (snd (planning_example fuel inp w)) !! solution_path inp
     = Some (SolutionFile (mkSolution (scenario_id_of (scenario inp))
                             (planning_problem_id inp) traj))) ∧
  (∀ traj, ego_vehicle_trajectory (planned inp) = Some traj →
     validation_error (scenario inp) (initial_state inp) traj ≠ None ∨
     "./data/solution" ∉ dirs w →
     files (snd (planning_example fuel inp w)) = files w) ∧
  (ego_vehicle_trajectory (planned inp) = None →
     files (snd (planning_example fuel inp w)) = files w).
Proof.
  split; [|split].
  - intros traj Htraj Hvalid Hdir.
    rewrite (planning_example_with_trajectory fuel inp traj w Htraj), Hvalid.
    rewrite decide_True by done.
    set (w0 := export_world inp traj w). cbn [snd].
    unfold animated_export, mbind, M_bind.
    pose proof (frame_loop_keeps_files fuel inp traj (fplist (planned inp))
                  (solution_path inp) (solution_is_no_frame inp) 0 [] None w0)
      as Hloop.
    destruct (frame_loop fuel inp traj 0 (fplist (planned inp)) [] None w0)
      as [[e|[images loc]] w1]; simpl in Hloop.
    + simpl. rewrite Hloop. subst w0. simpl. apply lookup_insert_eq.
    + rewrite encode_keeps_files by apply solution_is_no_gif.
      rewrite Hloop. subst w0. simpl. apply lookup_insert_eq.
  - intros traj Htraj Hstop.
    rewrite (planning_example_with_trajectory fuel inp traj w Htraj).
    destruct (validation_error _ _ _) as [e|]; [by destruct e|].
    destruct Hstop as [?|Hdir]; [done|].
    by rewrite decide_False by done.
  - intros Hnone.
    unfold planning_example, try_except_RuntimeError, try_block.
    by rewrite Hnone.
Qed.

End RunOutcomeProperties.

Lemma planning_example_failures_witness :
  fst (planning_example 10 (Demo.inputs (Some Demo.ego) [0.5] [])
         Demo.ready_world) = inl UnboundLocalError.
Proof.
  apply (planning_example_failures 10 (Demo.inputs (Some Demo.ego) [0.5] [])
           Demo.ready_world).
  exists Demo.ego. split; [reflexivity|]. right.
  split; [reflexivity|]. split; [vm_compute; set_solver | reflexivity].
Defined.

Lemma planning_example_completes_witness :
  ∃ w',
    planning_example 10 (Demo.inputs (Some Demo.ego) [0.5]
      [Demo.candidates0; Demo.candidates1]) Demo.ready_world = (inr (), w') ∧
    time_list w' = [0.5; 0; 0].
Proof.
  destruct (planning_example_completes 10
              (Demo.inputs (Some Demo.ego) [0.5]
                 [Demo.candidates0; Demo.candidates1])
              Demo.ego Demo.ready_world)
    as (w' & gif & Hrun & _ & _ & _ & Htl).
  - reflexivity.
  - reflexivity.
  - vm_compute. set_solver.
  - simpl. discriminate.
  - simpl. discriminate.
  - repeat constructor.
  - repeat constructor. vm_compute. eauto.
  - exists w'. split; [exact Hrun | exact Htl].
Defined.

Lemma solution_file_outlives_export_witness :
  fst (planning_example 10 (Demo.inputs (Some Demo.ego) [0.5] [])
         Demo.ready_world) = inl UnboundLocalError ∧
  files (snd (planning_example 10 (Demo.inputs (Some Demo.ego) [0.5] [])
                Demo.ready_world))
    !! solution_path (Demo.inputs (Some Demo.ego) [0.5] [])
  = Some (SolutionFile (mkSolution "DEU_Flensburg-1" 7 Demo.ego)).
Proof.
  split; [reflexivity|].
  apply (solution_file_outlives_export 10
           (Demo.inputs (Some Demo.ego) [0.5] []) Demo.ready_world).
  - reflexivity.
  - reflexivity.
  - vm_compute. set_solver.
Defined.

(** ** Where the files go *)

Lemma last_char_cons (b : ascii) (s : string) :
  ∃ c, last_char (String b s) = Some c.
Proof.
  revert b. induction s as [|a s IH]; intros b; [by exists b|].
  destruct (IH a) as [c Hc]. exists c. by rewrite <- Hc.
Qed.

Lemma starts_with_slash_rev_app (s acc : string) :
  starts_with_slash (String.rev_app s acc)
  = match last_char s with
    | Some c => bool_decide (c = "/"%char)
    | None => starts_with_slash acc
    end.
Proof.
  revert acc. induction s as [|a s IH]; intros acc; [done|].
  simpl. rewrite IH. destruct s as [|b s].
  - simpl. by destruct a as [[] [] [] [] [] [] [] []].
  - by destruct (last_char_cons b s) as [c ->].
Qed.

Lemma ends_with_slash_app (s t : string) :
  t ≠ "" → ends_with_slash (s +:+ t) = ends_with_slash t.
Proof.
  intros Ht. unfold ends_with_slash, String.rev.
  by rewrite !starts_with_slash_rev_app, last_char_app.
Qed.

Lemma string_app_not_empty (s t : string) : t ≠ "" → s +:+ t ≠ "".
Proof. intros Ht. destruct s; [done|]. discriminate. Qed.

Lemma string_app_assoc (s t u : string) : (s +:+ t) +:+ u = s +:+ t +:+ u.
Proof.
  induction s as [|a s IH]; [done|].
  change (String a (s +:+ t) +:+ u = String a (s +:+ t +:+ u)).
  change (String a ((s +:+ t) +:+ u) = String a (s +:+ t +:+ u)).
  by rewrite IH.
Qed.

(** Joining a relative, non-empty component onto a non-empty path. *)
Lemma path_join_relative (a b : string) :
  a ≠ "" → starts_with_slash b = false →
  path_join a b = if ends_with_slash a then a +:+ b else a +:+ "/" +:+ b.
Proof.
  intros Ha Hb. unfold path_join. rewrite Hb. by rewrite decide_False.
Qed.

Section LayoutProperties.
Context `{Collaborators}.

Lemma root_dir_shape (inp : ScriptInputs) :
  root_dir inp ≠ "" ∧ ends_with_slash (root_dir inp) = true ∧
  ∃ prefix, root_dir inp = prefix +:+ "data/".
Proof.
  unfold root_dir, path_join.
  change (starts_with_slash "data/") with false. cbv iota.
  destruct (decide (cwd inp = "")) as [Heq|Hne];
    [by split; [|split; [|exists ""]]|].
  destruct (ends_with_slash (cwd inp)).
  - split; [by apply string_app_not_empty|].
    split; [by rewrite ends_with_slash_app|]. by exists (cwd inp).
  - split; [by apply string_app_not_empty|].
    split; [by rewrite ends_with_slash_app|].
    exists (cwd inp +:+ "/"). by rewrite string_app_assoc.
Qed.

(** X13.  The layout of the outputs under the data directory
    [root_dir = join(cwd, "data/")], whatever the working directory: the
    frame of step [i] is stored as
    [<root_dir>results/gif_cache/FISS+/DEU_Flensburg-1_1_T-1/<i>.jpg], with
    [<i>] the decimal step index, and the animation as
    [<root_dir>results/gif/FISS+/DEU_Flensburg-1_1_T-1.gif]. *)
Theorem output_file_layout (inp : ScriptInputs) (i : nat) :
  file_path inp i
    = root_dir inp +:+ "results/gif_cache/FISS+/DEU_Flensburg-1_1_T-1/"
      +:+ pretty i +:+ ".jpg" ∧
  gif_filepath inp scenario_id
    = root_dir inp +:+ "results/gif/FISS+/DEU_Flensburg-1_1_T-1.gif" ∧
  root_dir inp
    = (if decide (cwd inp = "") then "data/"
       else if ends_with_slash (cwd inp) then cwd inp +:+ "data/"
       else cwd inp +:+ "/data/").
Proof.
  destruct (root_dir_shape inp) as (Hne & Hslash & _).
  assert (Hres : path_join (root_dir inp) result_dir
                 = root_dir inp +:+ "results/").
  { rewrite path_join_relative by done. by rewrite Hslash. }
  split; [|split].
  - unfold file_path, result_path. rewrite Hres.
    rewrite (path_join_relative _ "gif_cache")
      by (done || by apply string_app_not_empty).
    rewrite ends_with_slash_app by done. simpl.
    rewrite (path_join_relative _ method)
      by (done || by repeat apply string_app_not_empty).
    rewrite !ends_with_slash_app by done. simpl.
    rewrite (path_join_relative _ scenario_id)
      by (done || by repeat apply string_app_not_empty).
    rewrite !ends_with_slash_app by done. simpl.
    rewrite path_join_relative.
    + rewrite !ends_with_slash_app by done. simpl.
      by rewrite !string_app_assoc.
    + by repeat apply string_app_not_empty.
    + by apply starts_with_slash_app; [apply pretty_nat_no_slash|].
  - unfold gif_filepath, gif_dirpath. rewrite Hres.
    rewrite (path_join_relative _ "gif/")
      by (done || by apply string_app_not_empty).
    rewrite ends_with_slash_app by done. simpl.
    rewrite (path_join_relative _ method)
      by (done || by repeat apply string_app_not_empty).
    rewrite !ends_with_slash_app by done. simpl.
    rewrite path_join_relative
      by (done || by repeat apply string_app_not_empty).
    rewrite !ends_with_slash_app by done. simpl.
    by rewrite !string_app_assoc.
  - unfold root_dir, path_join.
    change (starts_with_slash "data/") with false. cbv iota.
    destruct (decide (cwd inp = "")); [done|].
    destruct (ends_with_slash (cwd inp)); [done|].
    done.
Qed.

End LayoutProperties.

(** ** What a run prints *)

Section StdoutProperties.
Context `{Collaborators}.

Lemma frame_body_stdout fuel inp traj i candidates w im w' :
  frame_body fuel inp traj i candidates w = (inr im, w') →
  stdout w' = stdout w
    ++ (if decide (result_path inp ∈ dirs w) then []
        else ["Target directory: " +:+ result_path inp +:+ " Created"])
    ++ ["Fig saved to: " +:+ file_path inp i] ∧
  result_path inp ∈ dirs w'.
Proof.
  unfold frame_body, mbind, M_bind.
  pose proof (compose_frame_world fuel inp traj i candidates w)
    as (_ & Hdirs & Hout & _).
  destruct (compose_frame fuel inp traj i candidates w) as [[e|fig] w1]; [done|].
  simpl in Hdirs, Hout.
  unfold save_frame, mbind, M_bind, ensure_dir, write_file, print, image_open.
  rewrite Hdirs.
  destruct (decide (result_path inp ∈ dirs w)) as [Hin|Hout'].
  - simpl. rewrite lookup_insert_eq. intros [= <- <-]. simpl.
    by rewrite Hout, Hdirs.
  - simpl. rewrite lookup_insert_eq. intros [= <- <-]. simpl.
    rewrite Hout, <- !app_assoc. split; [done|].
    apply elem_of_union. left. by apply elem_of_singleton.
Qed.

(** X14.  What the frame loop prints when it runs through the steps [rest]
    from index [i0]: the creation of the cache directory is announced once,
    by the first step and only when the directory was not there before the
    loop; then every step announces the file it has saved, in step order.  A
    loop over no steps prints nothing. *)
Theorem frame_loop_announcements fuel inp traj rest :
  ∀ i0 images0 loc0 w images loc w1,
    frame_loop fuel inp traj i0 rest images0 loc0 w = (inr (images, loc), w1) →
    stdout w1 = stdout w
      ++ (if decide (rest = [] ∨ result_path inp ∈ dirs w) then []
          else ["Target directory: " +:+ result_path inp +:+ " Created"])
      ++ ((λ i, "Fig saved to: " +:+ file_path inp i)
            <$> seq i0 (length rest)).
Proof.
  induction rest as [|candidates rest IH];
    intros i0 images0 loc0 w images loc w1; cbn [frame_loop].
  - intros [= <- <- <-]. rewrite decide_True by (by left).
    by rewrite !app_nil_r.
  - unfold mbind, M_bind.
    destruct (frame_body fuel inp traj i0 candidates w) as [[e|im] w0] eqn:Hbody;
      [done|].
    apply frame_body_stdout in Hbody as [Hout Hdir].
    intros Hrest. apply IH in Hrest. rewrite Hrest, Hout.
    rewrite (decide_True (P := rest = [] ∨ _)) by (by right).
    cbn [length seq fmap list_fmap app].
    rewrite <- !app_assoc. f_equal.
    destruct (decide (result_path inp ∈ dirs w)) as [Hin|Hnin].
    + by rewrite decide_True by (by right).
    + rewrite decide_False; [done|]. by intros [?|?].
Qed.

End StdoutProperties.

Lemma frame_loop_announcements_witness :
  ∃ w1 images loc,
    frame_loop 10 (Demo.inputs (Some Demo.ego) [0.5]
        [Demo.candidates0; Demo.candidates1]) Demo.ego 0
        [Demo.candidates0; Demo.candidates1] [] None
        (mkWorld [0.5] ∅ ∅ []) = (inr (images, loc), w1) ∧
    length (stdout w1) = 3%nat.
Proof.
  pose (inp := Demo.inputs (Some Demo.ego) [0.5]
                 [Demo.candidates0; Demo.candidates1]).
  destruct (frame_loop 10 inp Demo.ego 0 (fplist (planned inp)) [] None
              (mkWorld [0.5] ∅ ∅ []))
    as [[e|[images loc]] w1] eqn:Hloop; [vm_compute in Hloop; discriminate|].
  pose proof (frame_loop_announcements 10 inp Demo.ego _ _ _ _ _ _ _ _ Hloop)
    as Hout.
  exists w1, images, loc. split; [exact Hloop|].
  rewrite Hout. reflexivity.
Defined.

(** ** The static overview *)

Section OverviewProperties.
Context `{Collaborators}.

Lemma overview_obstacle_inv fuel xs ys obs ax ax' :
  overview_obstacle fuel xs ys obs ax = inr ax' →
  ∃ p xl yl,
    probe fuel obs = Some p ∧
    square_limits xs ys = inr (xl, yl) ∧
    xlim ax' = Some xl ∧ ylim ax' = Some yl ∧
    artists ax' = artists ax ++
      [Quiver (Py.stride 5 (Py.but_last (obs_traj_x p)))
              (Py.stride 5 (Py.but_last (obs_traj_y p)))
              (Py.stride 5 (Py.diff (obs_traj_x p)))
              (Py.stride 5 (Py.diff (obs_traj_y p))) "#1d7eea" 25 0.008;
       Plot (obs_traj_x p) (obs_traj_y p) "#1d7eea" 0.8 26 1].
Proof.
  unfold overview_obstacle. destruct (probe fuel obs) as [p|]; [|done].
  unfold mbind, result_bind.
  destruct (square_limits xs ys) as [e|[xl yl]]; [done|].
  intros [= <-]. exists p, xl, yl. simpl.
  rewrite <- app_assoc. by destruct xl, yl.
Qed.

Lemma overview_obstacles_limits fuel xs ys obss :
  ∀ ax ax', overview_obstacles fuel xs ys obss ax = inr ax' →
    obss ≠ [] →
    ∃ xl yl, square_limits xs ys = inr (xl, yl) ∧
             xlim ax' = Some xl ∧ ylim ax' = Some yl.
Proof.
  induction obss as [|obs obss IH]; intros ax ax'; simpl; [done|].
  unfold mbind, result_bind.
  destruct (overview_obstacle fuel xs ys obs ax) as [e|ax1] eqn:Hobs; [done|].
  intros Hrest _.
  apply overview_obstacle_inv in Hobs
    as (p & xl & yl & _ & Hlim & Hx & Hy & _).
  destruct obss as [|obs' obss'].
  - simpl in Hrest. injection Hrest as <-. by exists xl, yl.
  - by apply (IH ax1 ax' Hrest).
Qed.

(** X15.  In the static overview the axis limits are set inside the loop
    over the dynamic obstacles.  For a scenario without dynamic obstacles
    the drawing always succeeds, even for a trajectory without states, and
    leaves the axes autoscaled: scene and ego polyline only.  With at least
    one dynamic obstacle a finished drawing has exactly the square viewport
    of the animated frames, and a trajectory without states makes the first
    obstacle's iteration fail with [ValueError]. *)
Theorem overview_limits_need_an_obstacle fuel (inp : ScriptInputs) traj :
  (dynamic_obstacles (scenario inp) = [] →
   traj_visualization_axes fuel inp traj
   = inr (mkAxes
            [SceneSnapshot 0;
             Plot (ego_x (state_list traj)) (ego_y (state_list traj))
                  "green" 1 25 8]
            None None)) ∧
  (∀ ax, traj_visualization_axes fuel inp traj = inr ax →
     dynamic_obstacles (scenario inp) ≠ [] →
     ∃ xl yl,
       square_limits (ego_x (state_list traj)) (ego_y (state_list traj))
         = inr (xl, yl) ∧
       xlim ax = Some xl ∧ ylim ax = Some yl) ∧
  (∀ obs obss, dynamic_obstacles (scenario inp) = obs :: obss →
     is_Some (probe fuel obs) → state_list traj = [] →
     traj_visualization_axes fuel inp traj = inl ValueError).
Proof.
  unfold traj_visualization_axes. split; [|split].
  - by intros ->.
  - intros ax Hrun Hne. by eapply overview_obstacles_limits.
  - intros obs obss -> [p Hp] ->. simpl.
    unfold mbind, result_bind, overview_obstacle. by rewrite Hp.
Qed.

End OverviewProperties.

Lemma overview_limits_need_an_obstacle_witness :
  (∃ ax, traj_visualization_axes 10
           (@mkScriptInputs Demo.demo_collaborators "/home/user"
              (Demo.mkDemoScenario [] [] [])
              (Demo.st 0 0) 7 (mkPlanningResult true (Some Demo.ego) [] []))
           Demo.ego = inr ax ∧ xlim ax = None ∧ ylim ax = None) ∧
  (∃ ax, traj_visualization_axes 10
           (Demo.inputs (Some Demo.ego) [] []) Demo.ego = inr ax ∧
         xlim ax = Some (-8, 12) ∧ ylim ax = Some (-19 # 2, 21 # 2)).
Proof.
  split.
  - eexists. split.
    + apply (overview_limits_need_an_obstacle 10
               (@mkScriptInputs Demo.demo_collaborators "/home/user"
              (Demo.mkDemoScenario [] [] [])
                  (Demo.st 0 0) 7 (mkPlanningResult true (Some Demo.ego) [] []))
               Demo.ego).
      reflexivity.
    + split; reflexivity.
  - destruct (traj_visualization_axes 10 (Demo.inputs (Some Demo.ego) [] [])
                Demo.ego) as [e|ax] eqn:Hrun; [vm_compute in Hrun; discriminate|].
    destruct (overview_limits_need_an_obstacle 10
                (Demo.inputs (Some Demo.ego) [] []) Demo.ego) as (_ & Hlim & _).
    destruct (Hlim ax Hrun) as (xl & yl & Hsq & Hx & Hy); [simpl; discriminate|].
    exists ax. split; [reflexivity|].
    vm_compute in Hsq. injection Hsq as <- <-. split; [exact Hx | exact Hy].
Defined.
